(** * d8-lint: the orchestration and aggregation engine

    A shallow embedding of
      - package [errors]   (LintRuleError, LintRuleErrorsList),
      - package [manager]  (getModulePaths, getEnabledLinters, Manager.Run),
      - package [probes]   (RunRender, SplitAt, numerateManifestLines),
      - package [manager]  (NewManager), package [rules] (the checks of
        FROM instructions) and package [helm] (the helm linter),
    followed by the properties of the specification that concern them and
    by further properties of the code.

    Go strings are byte strings and are modelled by [string]; slices by
    [list]; Go maps by stdpp's [gmap] and the key-presence [sync.Map] by
    [gset]; a pair of results [(v, err)] by a Rocq pair whose error
    component is an [option].  Collaborators that live outside the
    repository files at hand (the colour and emoji libraries, the YAML
    parser, the renderer, the object store) are interfaces, given as type
    classes. *)

From Stdlib Require Import String Ascii List Bool Arith Lia Permutation.
From Stdlib Require Import Decimal DecimalString.
From stdpp Require Import base relations gmap strings list fin_maps sets.

Set Warnings "-register-all".

Import ListNotations.

(** ** Strings of the standard library of Go *)

Module strings.

Definition LF : string := String "010"%char EmptyString.
Definition TAB : string := String "009"%char EmptyString.

(** [strings.HasPrefix]. *)
Definition HasPrefix (s prefix : string) : bool := String.prefix prefix s.

(** [strings.Contains]: [substr] occurs in [s]. *)
Fixpoint Contains (s substr : string) : bool :=
  HasPrefix s substr ||
  match s with
  | EmptyString => false
  | String _ s' => Contains s' substr
  end.

(** [strings.ToLower] on the ASCII letters; bytes outside [A-Z] are kept
    (the names of the catalogue are ASCII). *)
Definition lower (c : ascii) : ascii :=
  let n := nat_of_ascii c in
  if (65 <=? n) && (n <=? 90) then ascii_of_nat (n + 32) else c.

Fixpoint ToLower (s : string) : string :=
  match s with
  | EmptyString => EmptyString
  | String c s' => String (lower c) (ToLower s')
  end.

End strings.

(** ** Package fmt: the part of [Sprintf] the engine relies on *)

Module fmt.

(** [fmt.Sprintf format a...] for formats without flags, widths or
    argument indexes, the operands being given by their [%s] rendering.
    Text outside verbs is copied; [%%] prints a percent sign; a verb
    consumes the next operand; a verb with no operand left prints
    [%!v(MISSING)] and a lone [%] at the end prints [%!(NOVERB)]. *)
Fixpoint Sprintf (format : string) (a : list string) : string :=
  match format with
  | EmptyString => EmptyString
  | String "%"%char rest =>
      match rest with
      | EmptyString => "%!(NOVERB)"
      | String "%"%char rest' => String "%"%char (Sprintf rest' a)
      | String verb rest' =>
          match a with
          | [] => "%!" +:+ String verb "(MISSING)" +:+ Sprintf rest' []
          | x :: a' => x +:+ Sprintf rest' a'
          end
      end
  | String c rest => String c (Sprintf rest a)
  end.

End fmt.

(** ** Package errors (src/unnamed/part_000, lines 1-86) *)

(** [any]: a dynamically typed value together with what [%s] prints for it. *)
Class GoAny := {
  any : Type;
  fmt_s : any -> string
}.

(** The terminal decorations: [emoji.Sprintf(":monkey:")] and the escape
    sequences [color.New(attr)] writes around a text (both empty when
    colours are switched off). *)
Inductive Attribute := FgHiBlue | FgRed.

Class Console := {
  emoji_monkey : string;
  color_format : Attribute -> string;
  color_unformat : Attribute -> string
}.

Module errors.
Section errors.
Context `{GoAny} `{Console}.

Record LintRuleError := {
  Text : string;
  ID : string;
  ObjectID : string;
  Value : option any       (* [nil] is [None] *)
}.

Definition EqualsTo (l candidate : LintRuleError) : bool :=
  String.eqb (ID l) (ID candidate) &&
  String.eqb (Text l) (Text candidate) &&
  String.eqb (ObjectID l) (ObjectID candidate).

Definition IsEmpty (l : LintRuleError) : bool :=
  String.eqb (ID l) "" && String.eqb (Text l) "" && String.eqb (ObjectID l) "".

Definition NewLintRuleError (id objectID : string) (value : option any)
    (template : string) (a : list string) : LintRuleError :=
  {| ObjectID := objectID; Value := value;
     Text := fmt.Sprintf template a; ID := id |}.

Definition EmptyRuleError : LintRuleError :=
  {| Text := ""; ID := ""; ObjectID := ""; Value := None |}.

Record LintRuleErrorsList := { data : list LintRuleError }.

(** The zero value [LintRuleErrorsList{}]. *)
Definition empty : LintRuleErrorsList := {| data := [] |}.

(** [slices.ContainsFunc(l.data, e.EqualsTo)]. *)
Definition ContainsFunc {A} (s : list A) (f : A -> bool) : bool := existsb f s.

Definition Add (l : LintRuleErrorsList) (e : LintRuleError) : LintRuleErrorsList :=
  if IsEmpty e then l
  else if ContainsFunc (data l) (EqualsTo e) then l
  else {| data := data l ++ [e] |}.

Definition Merge (l e : LintRuleErrorsList) : LintRuleErrorsList :=
  {| data := data l ++ data e |}.

(** [color.New(attr).SprintfFunc()(format, a...)]. *)
Definition SprintfFunc (attr : Attribute) (format : string) (a : list string) : string :=
  color_format attr +:+ fmt.Sprintf format a +:+ color_unformat attr.

(** What one iteration of the loop of [ConvertToError] writes to the
    builder. *)
Definition writeEntry (err : LintRuleError) : string :=
  fmt.Sprintf
    ("%s%s" +:+ strings.LF +:+ strings.TAB +:+ "Message" +:+ strings.TAB +:+ "- %s"
       +:+ strings.LF +:+ strings.TAB +:+ "Object" +:+ strings.TAB +:+ "- %s" +:+ strings.LF)
    [ emoji_monkey;
      SprintfFunc FgHiBlue "[#%s]" [ID err];
      SprintfFunc FgRed (Text err) [];
      ObjectID err ]
  +:+ match Value err with
      | Some v =>
          fmt.Sprintf (strings.TAB +:+ "Value" +:+ strings.TAB +:+ "- %s" +:+ strings.LF) [fmt_s v]
      | None => ""
      end
  +:+ strings.LF.

Fixpoint writeEntries (l : list LintRuleError) : string :=
  match l with
  | [] => ""
  | err :: l' => writeEntry err +:+ writeEntries l'
  end.

(** [ConvertToError]: [None] is the [nil] error, [Some s] is
    [errors.New(s)]. *)
Definition ConvertToError (l : LintRuleErrorsList) : option string :=
  match data l with
  | [] => None
  | _ => Some (writeEntries (data l))
  end.

End errors.
End errors.

(** ** The values of the interface [error] that occur in the engine *)

Inductive error :=
| errorString (msg : string)                  (* [errors.New], [fmt.Errorf] without [%w] *)
| SkipDir                                     (* [filepath.SkipDir] *)
| PathError (op path msg : string)            (* [*fs.PathError] of lstat and of reading a directory *)
| wrapError (prefix : string) (cause : error). (* [fmt.Errorf(prefix + "%w", cause)] *)

(** The method [Error()]. *)
Fixpoint Error (e : error) : string :=
  match e with
  | errorString msg => msg
  | SkipDir => "skip this directory"
  | PathError op path msg => op +:+ " " +:+ path +:+ ": " +:+ msg
  | wrapError prefix cause => prefix +:+ Error cause
  end.

Definition is_SkipDir (e : error) : bool :=
  match e with SkipDir => true | _ => false end.

(** ** Package path/filepath: [Walk] over a directory tree *)

Module filepath.

(** What lies at a path: a file, a directory with its entries (in the
    lexical order in which [Walk] reads the names), a directory whose
    entries cannot be read, or an entry on which [os.Lstat] fails. *)
Inductive node :=
| File
| Dir (entries : list (string * node))
| DirUnreadable (msg : string)
| Inaccessible (msg : string).

(** [info.IsDir()]. *)
Definition IsDir (info : node) : bool :=
  match info with
  | Dir _ | DirUnreadable _ => true
  | File | Inaccessible _ => false
  end.

(** [filepath.Join(path, name)] for a clean [path] and an entry name. *)
Definition Join (path name : string) : string := path +:+ "/" +:+ name.

Section Walk.
Context {St : Type}.

(** A [WalkFunc] closure: it reads the path, the file information and
    the error of reaching the path, and threads the variables it
    captured. *)
Definition WalkFunc := string -> node -> option error -> St -> St * option error.

Variable walkFn : WalkFunc.

(** [walk]: [walkFn] is called on the path, with the error of reading
    the names when it is a directory that cannot be read; when there is
    neither that error nor an error from [walkFn], the names of the
    directory are walked in turn.  [SkipDir] from the walk of a
    directory, or from [walkFn] on a name that [os.Lstat] rejects, is
    passed over; every other error ends the loop and is returned.
    ([SkipAll] is returned by no closure of the engine.) *)
Fixpoint walk (path : string) (info : node) (st : St) {struct info} : St * option error :=
  match info with
  | File => walkFn path info None st
  | Inaccessible msg => walkFn path info (Some (PathError "lstat" path msg)) st
  | DirUnreadable msg => walkFn path info (Some (PathError "open" path msg)) st
  | Dir entries =>
      match walkFn path info None st with
      | (st1, Some err1) => (st1, Some err1)
      | (st1, None) =>
          (fix loop (names : list (string * node)) (st : St) {struct names}
             : St * option error :=
             match names with
             | [] => (st, None)
             | (name, child) :: names' =>
                 let filename := Join path name in
                 match child with
                 | Inaccessible msg =>
                     match walkFn filename child (Some (PathError "lstat" filename msg)) st with
                     | (st', Some err) =>
                         if is_SkipDir err then loop names' st' else (st', Some err)
                     | (st', None) => loop names' st'
                     end
                 | _ =>
                     match walk filename child st with
                     | (st', Some err) =>
                         if negb (IsDir child) || negb (is_SkipDir err)
                         then (st', Some err)
                         else loop names' st'
                     | (st', None) => loop names' st'
                     end
                 end
             end) entries st1
      end
  end.

(** The loop of [walk] over the names of one directory. *)
Fixpoint walkNames (path : string) (names : list (string * node)) (st : St)
    : St * option error :=
  match names with
  | [] => (st, None)
  | (name, child) :: names' =>
      let filename := Join path name in
      match child with
      | Inaccessible msg =>
          match walkFn filename child (Some (PathError "lstat" filename msg)) st with
          | (st', Some err) =>
              if is_SkipDir err then walkNames path names' st' else (st', Some err)
          | (st', None) => walkNames path names' st'
          end
      | _ =>
          match walk filename child st with
          | (st', Some err) =>
              if negb (IsDir child) || negb (is_SkipDir err)
              then (st', Some err)
              else walkNames path names' st'
          | (st', None) => walkNames path names' st'
          end
      end
  end.

(** [filepath.Walk(root, walkFn)], [fs] being what lies at [root]. *)
Definition Walk (root : string) (fs : node) (st : St) : St * option error :=
  let '(st', err) :=
    match fs with
    | Inaccessible msg => walkFn root fs (Some (PathError "lstat" root msg)) st
    | _ => walk root fs st
    end in
  match err with
  | Some e => if is_SkipDir e then (st', None) else (st', Some e)
  | None => (st', None)
  end.

End Walk.

(** [os.Stat(filepath.Join(path, name))] succeeds, [dir] being what lies
    at [path]. *)
Definition statOK (dir : node) (name : string) : bool :=
  match dir with
  | Dir entries =>
      existsb (fun e => String.eqb (fst e) name &&
                        match snd e with Inaccessible _ => false | _ => true end) entries
  | _ => false
  end.

End filepath.

(** ** Package errgroup: a group of tasks with a limit *)

Module errgroup.
Section Group.
Context {S : Type}.

(** A task started by [g.Go]: what it does to the state shared by the
    tasks, in the critical section it takes, and the error it returns. *)
Definition task := S -> S * option error.

(** The group while [g.Go] is being called for the tasks of [queue] in
    turn: the tasks in flight, the shared state, and the first error
    returned so far (what [g.Wait] reports). *)
Record state := {
  queue : list task;
  running : list task;
  shared : S;
  firstErr : option error
}.

(** [g.SetLimit n]: a negative [n] is no limit; otherwise [g.Go] blocks
    while [n] tasks are in flight. *)
Definition admits (limit : Z) (inflight : nat) : Prop :=
  (limit < 0)%Z \/ (Z.of_nat inflight < limit)%Z.

Definition recordErr (first new : option error) : option error :=
  match first with
  | Some e => Some e
  | None => new
  end.

Inductive step (limit : Z) : state -> state -> Prop :=
| step_Go t q r s e :
    admits limit (length r) ->
    step limit {| queue := t :: q; running := r; shared := s; firstErr := e |}
               {| queue := q; running := t :: r; shared := s; firstErr := e |}
| step_done t q r1 r2 s e s' e' :
    t s = (s', e') ->
    step limit {| queue := q; running := r1 ++ t :: r2; shared := s; firstErr := e |}
               {| queue := q; running := r1 ++ r2; shared := s'; firstErr := recordErr e e' |}.

(** All the [g.Go] calls followed by [g.Wait()]: every task was started
    and has returned. *)
Definition Wait (limit : Z) (tasks : list task) (s : S) (s' : S) (e' : option error) : Prop :=
  rtc (step limit)
      {| queue := tasks; running := []; shared := s; firstErr := None |}
      {| queue := []; running := []; shared := s'; firstErr := e' |}.

(** The schedule in which each task returns before the next one starts. *)
Fixpoint inOrder (tasks : list task) (s : S) (e : option error) : S * option error :=
  match tasks with
  | [] => (s, e)
  | t :: tasks' => let '(s', e') := t s in inOrder tasks' s' (recordErr e e')
  end.

(** What has happened in a group: the tasks that returned, in the order
    in which they did, account for the shared state and the first error;
    they, the tasks in flight and the tasks not started are the tasks of
    the group. *)
Definition accounted (tasks : list task) (s0 : S) (st : state) : Prop :=
  exists finished,
    Permutation (finished ++ running st ++ queue st) tasks /\
    inOrder finished s0 None = (shared st, firstErr st).

End Group.
End errgroup.

(** ** Package manager (src/pkg/manager/manager.go) *)

(** The type [*module.Module], which the manager hands to the linters. *)
Class ModulePkg := {
  module_Module : Type;
  GetName : module_Module -> string;
  NewModule : string -> module_Module
}.

(** [config.Config.Linters]. *)
Record LintersConfig := {
  DisableAll : bool;
  EnableAll : bool;
  Enable : list string;
  Disable : list string
}.

Module manager.
Section manager.
Context `{GoAny} `{Console} `{ModulePkg}.

Definition ChartConfigFilename : string := "Chart.yaml".

(** The interface [Linter]. *)
Record Linter := {
  Name : string;
  Desc : string;
  Run : module_Module -> errors.LintRuleErrorsList * option error
}.

Record Manager := {
  cfg : LintersConfig;
  Linters : list Linter;
  Modules : list module_Module;
  lintersMap : gmap string Linter
}.

(** The loop of [NewManager] that fills [m.lintersMap]. *)
Definition fillLintersMap (linters : list Linter) : gmap string Linter :=
  fold_left (fun mp linter => <[strings.ToLower (Name linter) := linter]> mp) linters ∅.

Definition modulesLimit : Z := 10.

(** The closure passed to [g.Go] for linter [l] and module [md]; it
    locks the mutex around [result.Merge]. *)
Definition runTask (l : Linter) (md : module_Module) : errgroup.task (S := errors.LintRuleErrorsList) :=
  fun result =>
    let '(errs, err) := Run l md in
    match err with
    | Some e => (result, Some e)
    | None =>
        match errors.ConvertToError errs with
        | Some _ => (errors.Merge result errs, None)
        | None => (result, None)
        end
    end.

(** The loop [for i := range m.Linters] of [Run]: one group per linter,
    one task per module, [g.Wait()] at the end of each turn.  Each
    closure reads the [i] and [j] of its own turn of the loops (loop
    variables are per iteration since Go 1.22); the error [g.Wait()]
    returns is dropped.  The calls of the logger are left out. *)
Inductive RunLoop (modules : list module_Module)
  : list Linter -> errors.LintRuleErrorsList -> errors.LintRuleErrorsList -> Prop :=
| RunLoop_nil result : RunLoop modules [] result result
| RunLoop_cons l ls result result1 result2 e :
    errgroup.Wait modulesLimit (map (runTask l) modules) result result1 e ->
    RunLoop modules ls result1 result2 ->
    RunLoop modules (l :: ls) result result2.

(** [m.Run()] may return [result]. *)
Definition Run_returns (m : Manager) (result : errors.LintRuleErrorsList) : Prop :=
  RunLoop (Modules m) (Linters m) errors.empty result.

(** [Run] under the schedule in which the tasks return in the order in
    which they were started. *)
Definition RunInOrder (m : Manager) : errors.LintRuleErrorsList :=
  fold_left
    (fun result l => fst (errgroup.inOrder (map (runTask l) (Modules m)) result None))
    (Linters m) errors.empty.

(** [isExistsOnFilesystem(path, name)], [dir] being what lies at [path]. *)
Definition isExistsOnFilesystem (dir : filepath.node) (name : string) : bool :=
  filepath.statOK dir name.

(** The closure passed to [filepath.Walk]; it captures [chartDirs]. *)
Definition visit (modulesDir : string) : filepath.WalkFunc (St := list string) :=
  fun path info err chartDirs =>
    match err with
    | Some e => (chartDirs, Some (wrapError ("file access '" +:+ path +:+ "': ") e))
    | None =>
        if negb (filepath.IsDir info) then (chartDirs, None)
        else if String.eqb path modulesDir then (chartDirs, None)
        else
          (if isExistsOnFilesystem info ChartConfigFilename
           then chartDirs ++ [path] else chartDirs,
           Some SkipDir)
    end.

(** [getModulePaths(modulesDir)], [fs] being what lies at [modulesDir].
    The slice is [nil] when an error is returned. *)
Definition getModulePaths (modulesDir : string) (fs : filepath.node)
    : list string * option error :=
  match filepath.Walk (visit modulesDir) modulesDir fs [] with
  | (_, Some err) => ([], Some err)
  | (chartDirs, None) => (chartDirs, None)
  end.

(** The two map objects of [getEnabledLinters]: [m.lintersMap] and the
    map made by the literal [map[string]Linter{}].  The variable
    [resultLintersSet] refers to one of them. *)
Inductive mapRef := lintersMapRef | literalRef.

Definition mapHeap : Type := gmap string Linter * gmap string Linter.

Definition deref (r : mapRef) (h : mapHeap) : gmap string Linter :=
  match r with
  | lintersMapRef => fst h
  | literalRef => snd h
  end.

Definition update (r : mapRef) (f : gmap string Linter -> gmap string Linter)
    (h : mapHeap) : mapHeap :=
  match r with
  | lintersMapRef => (f (fst h), snd h)
  | literalRef => (fst h, f (snd h))
  end.

(** One turn of [for _, name := range m.cfg.Linters.Enable]. *)
Definition enableStep (resultLintersSet : mapRef) (h : mapHeap) (name : string) : mapHeap :=
  let name := strings.ToLower name in
  match fst h !! name with
  | None => h
  | Some linter => update resultLintersSet (insert name linter) h
  end.

(** One turn of [for _, name := range m.cfg.Linters.Disable]. *)
Definition disableStep (resultLintersSet : mapRef) (h : mapHeap) (name : string) : mapHeap :=
  match fst h !! name with
  | None => h
  | Some _ => update resultLintersSet (delete name) h
  end.

(** [m.getEnabledLinters()]: the final [resultLintersSet], whose values
    make the returned [LinterList] in the unspecified order of a [range]
    over a map, and the manager with what has become of [m.lintersMap]. *)
Definition getEnabledLinters (m : Manager) : gmap string Linter * Manager :=
  let resultLintersSet :=
    if DisableAll (cfg m) then literalRef
    else if EnableAll (cfg m) then lintersMapRef
    else lintersMapRef in
  let h := (lintersMap m, ∅) in
  let h := fold_left (enableStep resultLintersSet) (Enable (cfg m)) h in
  let h := fold_left (disableStep resultLintersSet) (Disable (cfg m)) h in
  (deref resultLintersSet h,
   {| cfg := cfg m; Linters := Linters m; Modules := Modules m; lintersMap := fst h |}).

(** A [LinterList] that [getEnabledLinters] may return. *)
Definition isLinterList (set : gmap string Linter) (result : list Linter) : Prop :=
  Permutation result (map snd (map_to_list set)).

End manager.
End manager.

(** ** Package manager, the revision of src/unnamed/part_000 (lines 86-238)

    The closure of [Run] is the one of the revision above; the loops are
    nested the other way round (one group per module, one task per
    linter), the limit comes from a flag, and [getModulePaths] looks for
    other marker files and walks the whole tree. *)

Module manager_rev.
Section manager_rev.
Context `{GoAny} `{Console} `{ModulePkg}.

Definition ChartConfigFilename : string := "Chart.yaml".
Definition ModuleYamlFilename : string := "module.yaml".
Definition HooksDir : string := "hooks".
Definition ImagesDir : string := "images".

(** The loop [for i := range m.Modules] of [Run]; [LintersLimit] is
    [flags.LintersLimit]. *)
Inductive RunLoop (LintersLimit : Z) (linters : list manager.Linter)
  : list module_Module -> errors.LintRuleErrorsList -> errors.LintRuleErrorsList -> Prop :=
| RunLoop_nil result : RunLoop LintersLimit linters [] result result
| RunLoop_cons md mds result result1 result2 e :
    errgroup.Wait LintersLimit (map (fun l => manager.runTask l md) linters) result result1 e ->
    RunLoop LintersLimit linters mds result1 result2 ->
    RunLoop LintersLimit linters (md :: mds) result result2.

Definition Run_returns (LintersLimit : Z) (m : manager.Manager)
    (result : errors.LintRuleErrorsList) : Prop :=
  RunLoop LintersLimit (manager.Linters m) (manager.Modules m) errors.empty result.

Definition RunInOrder (m : manager.Manager) : errors.LintRuleErrorsList :=
  fold_left
    (fun result md =>
       fst (errgroup.inOrder (map (fun l => manager.runTask l md) (manager.Linters m)) result None))
    (manager.Modules m) errors.empty.

Definition visit : filepath.WalkFunc (St := list string) :=
  fun path info err chartDirs =>
    match err with
    | Some e => (chartDirs, Some (wrapError ("file access '" +:+ path +:+ "': ") e))
    | None =>
        if negb (filepath.IsDir info) then (chartDirs, None)
        else
          (if manager.isExistsOnFilesystem info ModuleYamlFilename ||
              (manager.isExistsOnFilesystem info ChartConfigFilename &&
               (manager.isExistsOnFilesystem info HooksDir ||
                manager.isExistsOnFilesystem info ImagesDir))
           then chartDirs ++ [path] else chartDirs,
           None)
    end.

Definition getModulePaths (modulesDir : string) (fs : filepath.node)
    : list string * option error :=
  match filepath.Walk visit modulesDir fs [] with
  | (_, Some err) => ([], Some err)
  | (chartDirs, None) => (chartDirs, None)
  end.

End manager_rev.
End manager_rev.

(** ** Package probes (src/pkg/linters/probes/controller.go) *)

(** [helm.Renderer]. *)
Record Renderer := {
  Renderer_Name : string;
  Renderer_Namespace : string;
  Renderer_LintMode : bool
}.

(** What [RunRender] calls outside the package: the fields of the module,
    the renderer, [hashstructure.Hash], [yaml.Unmarshal] into a
    [map[string]interface{}], and the object store.  The rendered files
    are a Go map; they are given as the list of its entries in the order
    in which [range files] yields them. *)
Class RenderPkg `{ModulePkg} := {
  Chart : Type;
  Values : Type;
  yamlNode : Type;
  UnstructuredObjectStore : Type;
  module_Name : module_Module -> string;
  module_Namespace : module_Module -> string;
  module_Chart : module_Module -> Chart;
  RenderChartFromRawValues :
    Renderer -> Chart -> Values -> list (string * string) * option error;
  Hash : list (string * string) -> N * option error;
  Unmarshal : string -> yamlNode * option error;
  node_len : yamlNode -> nat;
  Put : string -> yamlNode -> string -> UnstructuredObjectStore ->
        UnstructuredObjectStore * option error
}.

Module probes.
Section probes.
Context `{RenderPkg}.

(** [strings.Index]. *)
Fixpoint Index (s substr : string) : option nat :=
  if strings.HasPrefix s substr then Some 0
  else match s with
       | EmptyString => None
       | String _ s' => option_map S (Index s' substr)
       end.

(** [data[n:]]. *)
Fixpoint from (n : nat) (data : string) : string :=
  match n, data with
  | 0, _ => data
  | S n', String _ data' => from n' data'
  | S _, EmptyString => EmptyString
  end.

(** The split function [SplitAt(substring)]: the advance and the token
    ([None] is the [nil] token); its error is always [nil]. *)
Definition SplitAt (substring : string) (data : string) (atEOF : bool)
    : nat * option string :=
  if atEOF && (String.length data =? 0) then (0, None)
  else match Index data substring with
       | Some i => (i + String.length substring, Some (String.substring 0 i data))
       | None => if atEOF then (String.length data, Some data) else (0, None)
       end.

(** The tokens [scanner.Scan()] yields for an input held in memory and
    shorter than the scanner's buffer: the split function is applied to
    what is left of the input until it returns no token. *)
Fixpoint scanTokens (split : string -> bool -> nat * option string)
    (fuel : nat) (data : string) : list string :=
  match fuel with
  | 0 => []
  | S fuel' =>
      match split data true with
      | (advance, Some token) => token :: scanTokens split fuel' (from advance data)
      | (_, None) => []
      end
  end.

Definition Scan (split : string -> bool -> nat * option string) (input : string) : list string :=
  scanTokens split (S (String.length input)) input.

(** [strings.Split(s, sep)] for a separator that is not empty. *)
Fixpoint splitFuel (fuel : nat) (s sep : string) : list string :=
  match fuel with
  | 0 => [s]
  | S fuel' =>
      match Index s sep with
      | None => [s]
      | Some i => String.substring 0 i s :: splitFuel fuel' (from (i + String.length sep) s) sep
      end
  end.

Definition Split (s sep : string) : list string := splitFuel (String.length s) s sep.

(** [%d] of a non-negative [int]. *)
Definition itoa (n : nat) : string := NilEmpty.string_of_uint (Nat.to_uint n).

Definition manifestErrorMessage (err manifest : string) : string :=
  "manifest unmarshal: " +:+ err +:+ strings.LF +:+ strings.LF +:+
  "--- Manifest:" +:+ strings.LF +:+ manifest +:+ strings.LF.

Fixpoint numerateFrom (index : nat) (manifestLines : list string) : string :=
  match manifestLines with
  | [] => ""
  | line :: rest =>
      itoa (index + 1) +:+ strings.TAB +:+ line +:+ strings.LF +:+ numerateFrom (S index) rest
  end.

Definition numerateManifestLines (manifest : string) : string :=
  numerateFrom 0 (Split manifest strings.LF).

(** [renderedTemplatesHash.Load(hash)] and [.Store(hash, struct{}{})] on
    the package-level [sync.Map]. *)
Definition Load (renderedTemplatesHash : gset N) (hash : N) : bool :=
  bool_decide (hash ∈ renderedTemplatesHash).

Definition Store (renderedTemplatesHash : gset N) (hash : N) : gset N :=
  {[hash]} ∪ renderedTemplatesHash.

(** The loop [for scanner.Scan()] over the documents of one file. *)
Fixpoint scanDocs (path : string) (docs : list string) (objectStore : UnstructuredObjectStore)
    : option error * UnstructuredObjectStore :=
  match docs with
  | [] => (None, objectStore)
  | docBytes :: docs' =>
      match Unmarshal docBytes with
      | (_, Some err) =>
          (Some (errorString
                   (manifestErrorMessage (Error err) (numerateManifestLines docBytes))),
           objectStore)
      | (node, None) =>
          if node_len node =? 0 then scanDocs path docs' objectStore
          else
            match Put path node docBytes objectStore with
            | (objectStore', Some err) =>
                (Some (errorString ("helm chart object already exists: " +:+ Error err)),
                 objectStore')
            | (objectStore', None) => scanDocs path docs' objectStore'
            end
      end
  end.

(** The loop [for path, bigFile := range files]. *)
Fixpoint rangeFiles (files : list (string * string)) (objectStore : UnstructuredObjectStore)
    : option error * UnstructuredObjectStore :=
  match files with
  | [] => (None, objectStore)
  | (path, bigFile) :: files' =>
      match scanDocs path (Scan (SplitAt "---") bigFile) objectStore with
      | (Some err, objectStore') => (Some err, objectStore')
      | (None, objectStore') => rangeFiles files' objectStore'
      end
  end.

(** [RunRender(m, values, objectStore)]: the error it returns, the object
    store and the package-level cache when it returns. *)
Definition RunRender (m : module_Module) (values : Values)
    (objectStore : UnstructuredObjectStore) (renderedTemplatesHash : gset N)
    : option error * UnstructuredObjectStore * gset N :=
  let renderer :=
    {| Renderer_Name := module_Name m;
       Renderer_Namespace := module_Namespace m;
       Renderer_LintMode := true |} in
  match RenderChartFromRawValues renderer (module_Chart m) values with
  | (_, Some err) =>
      (Some (errorString ("helm chart render: " +:+ Error err)), objectStore,
       renderedTemplatesHash)
  | (files, None) =>
      match Hash files with
      | (_, Some err) =>
          (Some (errorString ("helm chart render: " +:+ Error err)), objectStore,
           renderedTemplatesHash)
      | (hash, None) =>
          if Load renderedTemplatesHash hash
          then (None, objectStore, renderedTemplatesHash)
          else
            let '(lintError, objectStore') := rangeFiles files objectStore in
            (* the deferred [renderedTemplatesHash.Store] runs on return *)
            (lintError, objectStore', Store renderedTemplatesHash hash)
      end
  end.

(** The hash a call of [RunRender] presents to the cache, when it gets
    that far. *)
Definition presents (m : module_Module) (values : Values) : option N :=
  let renderer :=
    {| Renderer_Name := module_Name m;
       Renderer_Namespace := module_Namespace m;
       Renderer_LintMode := true |} in
  match RenderChartFromRawValues renderer (module_Chart m) values with
  | (_, Some _) => None
  | (files, None) =>
      match Hash files with
      | (_, Some _) => None
      | (hash, None) => Some hash
      end
  end.

(** *** Callers of [RunRender] that run at the same time

    [Load] and [Store] of a [sync.Map] are atomic one by one.  A caller
    that has computed [hash] is about to load it (line 40); when the hash
    is absent it goes on to the documents with the store deferred (line
    44), and the store runs when the function returns. *)
Inductive caller :=
| atLoad (hash : N)
| validating (hash : N)
| returned (firstSeen : bool).

Inductive callerStep : gset N * caller -> gset N * caller -> Prop :=
| Load_present c hash :
    Load c hash = true -> callerStep (c, atLoad hash) (c, returned false)
| Load_absent c hash :
    Load c hash = false -> callerStep (c, atLoad hash) (c, validating hash)
| deferred_Store c hash :
    callerStep (c, validating hash) (Store c hash, returned true).

(** Two callers, interleaved. *)
Inductive raceStep : gset N * caller * caller -> gset N * caller * caller -> Prop :=
| race_left c a b c' a' :
    callerStep (c, a) (c', a') -> raceStep (c, a, b) (c', a', b)
| race_right c a b c' b' :
    callerStep (c, b) (c', b') -> raceStep (c, a, b) (c', a, b').

End probes.
End probes.

(** ** Notions used to state the properties of module discovery *)

Module discovery.

(** No error stands in the way at the first level of a directory: every
    entry can be examined and every directory among them can be read. *)
Definition accessible (e : string * filepath.node) : bool :=
  match snd e with
  | filepath.File | filepath.Dir _ => true
  | filepath.DirUnreadable _ | filepath.Inaccessible _ => false
  end.

(** The entry is a directory that holds the marker file. *)
Definition isModuleDir (marker : string) (e : string * filepath.node) : bool :=
  filepath.IsDir (snd e) && filepath.statOK (snd e) marker.

(** The closure [walkFn] with a log of the paths it is called on. *)
Definition traced {St : Type} (walkFn : filepath.WalkFunc (St := St))
    : filepath.WalkFunc (St := St * list string) :=
  fun path info err st =>
    let '(st', e) := walkFn path info err (fst st) in
    ((st', snd st ++ [path]), e).

(** The paths [filepath.Walk] calls [walkFn] on, in order. *)
Definition visited {St : Type} (walkFn : filepath.WalkFunc (St := St))
    (root : string) (fs : filepath.node) (st : St) : list string :=
  snd (fst (filepath.Walk (traced walkFn) root fs (st, []))).

(** The discovery as the specification words it, on a tree that can be
    read: below the search root, the first directory at any depth that
    holds the marker is a module root and is not descended into;
    directories without the marker are descended into. *)
Fixpoint specified (marker : string) (path : string) (info : filepath.node) : list string :=
  match info with
  | filepath.Dir entries =>
      flat_map
        (fun e =>
           match e with
           | (name, child) =>
               if filepath.IsDir child && filepath.statOK child marker
               then [filepath.Join path name]
               else specified marker (filepath.Join path name) child
           end)
        entries
  | _ => []
  end.

End discovery.

(** ** Notions used to state the properties of [Run] *)

Module orchestration.
Section orchestration.
Context `{GoAny} `{Console} `{ModulePkg}.

(** The findings the pair of [l] and [md] hands to [Run]: those [l.Run]
    returns, and none when it returns an error. *)
Definition findings (l : manager.Linter) (md : module_Module) : list errors.LintRuleError :=
  match manager.Run l md with
  | (errs, None) => errors.data errs
  | (_, Some _) => []
  end.

(** What a task adds to the result, read off its effect on the empty
    result. *)
Definition added (t : errgroup.task (S := errors.LintRuleErrorsList))
    : list errors.LintRuleError :=
  errors.data (fst (t errors.empty)).

End orchestration.
End orchestration.

(** ** Notions used to state the properties of the render cache *)

Module rendering.
Section rendering.
Context `{RenderPkg}.

(** The cache after a sequence of calls of [RunRender], one after the
    other. *)
Definition cacheAfter
    (calls : list (module_Module * Values * UnstructuredObjectStore))
    (renderedTemplatesHash : gset N) : gset N :=
  fold_left
    (fun cache call =>
       snd (probes.RunRender (fst (fst call)) (snd (fst call)) (snd call) cache))
    calls renderedTemplatesHash.

End rendering.
End rendering.

(** ** Notions used to state the properties of concurrent callers *)

Module racing.
Import probes.

(** What holds of two callers that started with the same absent hash:
    each is at a place of the protocol for that hash; the hash is in the
    cache exactly when one of them has stored it; a caller that found it
    present did so after the other one's store. *)
Definition inRace (hash : N) (st : gset N * caller * caller) : Prop :=
  let '(c, a, b) := st in
  (a = atLoad hash \/ a = validating hash \/ exists seen, a = returned seen) /\
  (b = atLoad hash \/ b = validating hash \/ exists seen, b = returned seen) /\
  (Load c hash = true <-> a = returned true \/ b = returned true) /\
  (a = returned false -> b = returned true) /\
  (b = returned false -> a = returned true).

End racing.

(** ** Package manager: [NewManager] (src/pkg/manager/manager.go, lines 35-80) *)

Module newmanager.
Section newmanager.
Context `{GoAny} `{Console} `{ModulePkg}.

(** [homedir.Expand], and what lies at a path of the file system. *)
Variable Expand : string -> string * option error.
Variable lies : string -> filepath.node.

(** One turn of [for i := range dirs]: a directory that cannot be
    expanded is passed over; the slice [getModulePaths] returns ([nil]
    beside an error, which is logged) is appended to [paths]. *)
Definition collect (paths : list string) (d : string) : list string :=
  match Expand d with
  | (_, Some _) => paths
  | (dir, None) => paths ++ fst (manager.getModulePaths dir (lies dir))
  end.

(** [NewManager(dirs, cfg)] may return [m], the linters made by the
    constructors being [catalogue]: [m.Linters] holds the values of the
    set of [getEnabledLinters] in the order of a [range] over that map. *)
Definition NewManager_returns (catalogue : list manager.Linter) (dirs : list string)
    (cfg : LintersConfig) (m : manager.Manager) : Prop :=
  let m0 := {| manager.cfg := cfg; manager.Linters := catalogue; manager.Modules := [];
               manager.lintersMap := manager.fillLintersMap catalogue |} in
  manager.cfg m = cfg /\
  manager.isLinterList (fst (manager.getEnabledLinters m0)) (manager.Linters m) /\
  manager.lintersMap m = manager.lintersMap (snd (manager.getEnabledLinters m0)) /\
  manager.Modules m = map NewModule (fold_left collect dirs []).

End newmanager.
End newmanager.

(** ** Package rules: the checks of [FROM] instructions
    (src/pkg/manager/manager.go, lines 243-252 and 424-458) *)

Module rules.

(** [distrolessImagesPrefix]. *)
Definition distrolessImagesPrefix : gmap string (list string) :=
  <["werf" := ["{{ .Images.BASE_DISTROLESS"; "{{ $.Images.BASE_ALT"]]>
  (<["docker" := ["$BASE_DISTROLESS"; "$BASE_ALT"]]> ∅).

(** Indexing a map of slices: [nil] for a missing key. *)
Definition index (m : gmap string (list string)) (key : string) : list string :=
  default [] (m !! key).

(** The loop of [checkDistrolessPrefix], which leaves at the first
    pattern that is a prefix. *)
Fixpoint checkDistrolessPrefix (str : string) (patterns : list string) : bool :=
  match patterns with
  | [] => false
  | pattern :: rest =>
      if strings.HasPrefix str pattern then true else checkDistrolessPrefix str rest
  end.

Definition isWerfInstructionUnacceptable (from : string) : bool * string :=
  if negb (checkDistrolessPrefix from (index distrolessImagesPrefix "werf"))
  then (true, "`from:` parameter for `image:` should be one of our BASE_DISTROLESS images")
  else (false, EmptyString).

(** A byte of the class [[A-Fa-f0-9]]. *)
Definition isHex (c : ascii) : bool :=
  let n := nat_of_ascii c in
  ((48 <=? n) && (n <=? 57)) || ((65 <=? n) && (n <=? 70)) || ((97 <=? n) && (n <=? 102)).

(** [s] starts with [n] bytes of that class. *)
Fixpoint hexRun (n : nat) (s : string) : bool :=
  match n with
  | 0 => true
  | S n' =>
      match s with
      | EmptyString => false
      | String c s' => isHex c && hexRun n' s'
      end
  end.

(** [regexp.MatchString("@sha256:[A-Fa-f0-9]{64}", s)]: somewhere in [s]
    the text [@sha256:] is followed by 64 bytes of the class. *)
Fixpoint matchSha256 (s : string) : bool :=
  match s with
  | EmptyString => false
  | String _ s' =>
      (strings.HasPrefix s "@sha256:" &&
       hexRun 64 (probes.from 8 s))
      || matchSha256 s'
  end.

Definition isDockerfileInstructionUnacceptable (from : string) (final : bool) : bool * string :=
  if String.eqb from "scratch" then (false, EmptyString)
  else if final then
    if negb (checkDistrolessPrefix from (index distrolessImagesPrefix "docker"))
    then (true, "Last `FROM` instruction should use one of our $BASE_DISTROLESS images")
    else (false, EmptyString)
  else
    let matched := matchSha256 from in
    if negb (strings.HasPrefix from "$BASE_") && negb matched
    then (true, "Intermediate `FROM` instructions should use one of our $BASE_ images or have `@sha526:` checksum specified")
    else (false, EmptyString).

End rules.

(** ** Package helm (src/pkg/linters/helm/helm.go) *)

Module helm.
Section helm.
Context `{GoAny} `{Console}.

(** [config.HelmSettings], the module type of this revision, and
    [rules.ApplyHelmRules]. *)
Context {HelmSettings : Type} {module_T : Type}.
Variable ApplyHelmRules : module_T -> errors.LintRuleErrorsList.

Record Helm := {
  name : string;
  desc : string;
  cfg : HelmSettings
}.

(** [New(cfg)]: the linter, and the value it assigns to [rules.Cfg]. *)
Definition New (cfg : HelmSettings) : Helm * HelmSettings :=
  ({| name := "helm"; desc := "Lint helm objects"; cfg := cfg |}, cfg).

(** [Run(m)], [None] being the [nil] module. *)
Definition Run (h : Helm) (m : option module_T) : errors.LintRuleErrorsList * option error :=
  let result := errors.empty in
  match m with
  | None => (result, None)
  | Some m => (errors.Merge result (ApplyHelmRules m), None)
  end.

Definition Name (o : Helm) : string := name o.

Definition Desc (o : Helm) : string := desc o.

End helm.
End helm.

(** The helm linter as one of the linters of the manager, which hands it
    modules that are not [nil]. *)
Module helmlinter.
Section helmlinter.
Context `{GoAny} `{Console} `{ModulePkg} {HelmSettings : Type}.
Variable ApplyHelmRules : module_Module -> errors.LintRuleErrorsList.

Definition asLinter (h : helm.Helm (HelmSettings := HelmSettings)) : manager.Linter :=
  {| manager.Name := helm.Name h;
     manager.Desc := helm.Desc h;
     manager.Run := fun md => helm.Run ApplyHelmRules h (Some md) |}.

End helmlinter.
End helmlinter.

(** ** Notions used to state further properties *)

Module notions.
Section notions.
Context `{GoAny}.

(** No entry is empty and no two entries are equal in the sense of
    [EqualsTo]. *)
Fixpoint distinct (l : list errors.LintRuleError) : bool :=
  match l with
  | [] => true
  | e :: l' =>
      negb (errors.IsEmpty e) && negb (existsb (errors.EqualsTo e) l') && distinct l'
  end.

End notions.

(** [bufio.MaxScanTokenSize]: a scanner gives up on a token that does not
    fit a buffer of this size; an input shorter than it is scanned to its
    end. *)
Definition MaxScanTokenSize : nat := 64 * 1024.

(** The tokens with the separator between them. *)
Fixpoint join (sep : string) (tokens : list string) : string :=
  match tokens with
  | [] => EmptyString
  | [t] => t
  | t :: rest => t +:+ sep +:+ join sep rest
  end.

(** The directories of a tree, each with its path, the parent before its
    entries and the entries in the order of the walk. *)
Fixpoint directories (path : string) (info : filepath.node) : list (string * filepath.node) :=
  match info with
  | filepath.Dir entries =>
      (path, info) ::
      flat_map
        (fun e => match e with
                  | (name, child) => directories (filepath.Join path name) child
                  end)
        entries
  | _ => []
  end.

(** Nothing in the tree stands in the way of the walk. *)
Fixpoint readable (info : filepath.node) : bool :=
  match info with
  | filepath.File => true
  | filepath.Dir entries =>
      forallb (fun e => match e with (_, child) => readable child end) entries
  | filepath.DirUnreadable _ | filepath.Inaccessible _ => false
  end.

(** The test of the closure of the revision of part_000. *)
Definition isModuleRev (info : filepath.node) : bool :=
  filepath.statOK info manager_rev.ModuleYamlFilename ||
  (filepath.statOK info manager_rev.ChartConfigFilename &&
   (filepath.statOK info manager_rev.HooksDir ||
    filepath.statOK info manager_rev.ImagesDir)).

End notions.

(** ** Concrete collaborators, for the examples *)

(** Payloads that are Go strings: [%s] prints the string itself. *)
Definition stringAny : GoAny := {| any := string; fmt_s := fun s => s |}.

(** A terminal without colours; the monkey is U+1F412 followed by a
    space, in UTF-8. *)
Definition plainConsole : Console :=
  {| emoji_monkey :=
       String "240" (String "159" (String "144" (String "146" (String " " EmptyString))));
     color_format := fun _ => "";
     color_unformat := fun _ => "" |}.

(** Modules known by their path only. *)
Definition pathModule : ModulePkg :=
  {| module_Module := string; GetName := fun p => p; NewModule := fun p => p |}.

#[local] Existing Instance stringAny.
#[local] Existing Instance plainConsole.
#[local] Existing Instance pathModule.

(** A linter given by its name and by what it returns for each module. *)
Definition exampleLinter (name : string)
    (run : string -> errors.LintRuleErrorsList * option error) : manager.Linter :=
  {| manager.Name := name; manager.Desc := EmptyString; manager.Run := run |}.

(** A finding without payload. *)
Definition finding (id objectID text : string) : errors.LintRuleError :=
  {| errors.Text := text; errors.ID := id; errors.ObjectID := objectID;
     errors.Value := None |}.

(** The catalogue of [NewManager], with linters that find nothing. *)
Definition catalogue : gmap string manager.Linter :=
  manager.fillLintersMap
    [exampleLinter "openapi" (fun _ => (errors.empty, None));
     exampleLinter "no-cyrillic" (fun _ => (errors.empty, None));
     exampleLinter "copyright" (fun _ => (errors.empty, None));
     exampleLinter "probes" (fun _ => (errors.empty, None))].

Definition configured (c : LintersConfig) : manager.Manager :=
  {| manager.cfg := c; manager.Linters := []; manager.Modules := [];
     manager.lintersMap := catalogue |}.

(** A linter that fails on the module [bad] and reports one finding on
    every other module. *)
Definition failingOn (bad name : string) : manager.Linter :=
  exampleLinter name
    (fun md =>
       if String.eqb md bad
       then (errors.empty, Some (errorString "cannot read the module"))
       else ({| errors.data := [finding name md "violation"] |}, None)).

Definition exampleManager : manager.Manager :=
  {| manager.cfg := {| DisableAll := false; EnableAll := true; Enable := []; Disable := [] |};
     manager.Linters := [failingOn "root/modB" "copyright"; failingOn "nowhere" "probes"];
     manager.Modules := ["root/modA"; "root/modB"];
     manager.lintersMap := ∅ |}.

(** A renderer that returns the chart as it is, a hash that adds up the
    lengths of the files, a parser that rejects the documents starting
    with a colon, and a store that refuses a document it already holds. *)
Definition exampleRender : RenderPkg :=
  {| Chart := list (string * string);
     Values := unit;
     yamlNode := string;
     UnstructuredObjectStore := list string;
     module_Name := fun m => m;
     module_Namespace := fun _ => "default";
     module_Chart := fun m =>
       [(m +:+ "/templates/a.yaml", "kind: A---: broken---kind: B")];
     RenderChartFromRawValues := fun _ chart _ => (chart, None);
     Hash := fun files =>
       (N.of_nat (list_sum (map (fun f => String.length (snd f)) files)), None);
     Unmarshal := fun doc =>
       if strings.HasPrefix doc ":"
       then (doc, Some (errorString "yaml: did not find expected key"))
       else (doc, None);
     node_len := String.length;
     Put := fun _ node _ store =>
       if existsb (String.eqb node) store
       then (store, Some (errorString "object already exists"))
       else (store ++ [node], None) |}.

(** * Properties *)

(** ** Strings *)

Section string_facts.

Lemma append_String (c : ascii) (s t : string) : String c s +:+ t = String c (s +:+ t).
Proof. reflexivity. Qed.

Lemma append_empty_l (t : string) : EmptyString +:+ t = t.
Proof. reflexivity. Qed.

Lemma append_empty_r (s : string) : s +:+ EmptyString = s.
Proof. induction s as [|c s IH]; [reflexivity|]. rewrite append_String, IH. reflexivity. Qed.

Lemma append_assoc (s t u : string) : (s +:+ t) +:+ u = s +:+ t +:+ u.
Proof.
  induction s as [|c s IH]; [reflexivity|]. rewrite !append_String, IH. reflexivity.
Qed.

Lemma prefix_app (s t : string) : String.prefix s (s +:+ t) = true.
Proof.
  induction s as [|c s IH].
  - now destruct t.
  - rewrite append_String. simpl. destruct (ascii_dec c c); [exact IH | congruence].
Qed.

Lemma prefix_app_l (s t u : string) :
  String.prefix s t = true -> String.prefix s (t +:+ u) = true.
Proof.
  revert t. induction s as [|c s IH]; intros t Hp.
  - now destruct (t +:+ u).
  - destruct t as [|d t]; simpl in Hp; [discriminate|].
    rewrite append_String. simpl.
    destruct (ascii_dec c d); [now apply IH | discriminate].
Qed.

Lemma Contains_prefix (t s : string) :
  String.prefix s t = true -> strings.Contains t s = true.
Proof.
  intros Hp. destruct t; cbn [strings.Contains]; unfold strings.HasPrefix; rewrite Hp; reflexivity.
Qed.

Lemma Contains_String (c : ascii) (t s : string) :
  strings.Contains t s = true -> strings.Contains (String c t) s = true.
Proof. intros Hs. cbn [strings.Contains]. rewrite Hs. apply orb_true_r. Qed.

(** A substring of [t] is a substring of [a +:+ t]. *)
Lemma Contains_app_skip (a t s : string) :
  strings.Contains t s = true -> strings.Contains (a +:+ t) s = true.
Proof.
  intros Hs. induction a as [|c a IH]; [exact Hs|].
  rewrite append_String. now apply Contains_String.
Qed.

(** A substring of [t] is a substring of [t +:+ b]. *)
Lemma Contains_app_keep (t b s : string) :
  strings.Contains t s = true -> strings.Contains (t +:+ b) s = true.
Proof.
  induction t as [|c t IH]; cbn [strings.Contains]; intros Hs.
  - rewrite orb_false_r in Hs. unfold strings.HasPrefix in Hs.
    destruct s; [|simpl in Hs; discriminate].
    apply Contains_prefix. now destruct (EmptyString +:+ b).
  - apply orb_true_iff in Hs as [Hp | Hc].
    + apply Contains_prefix. now apply prefix_app_l.
    + rewrite append_String. apply Contains_String. now apply IH.
Qed.

Lemma Contains_self (s : string) : strings.Contains s s = true.
Proof. apply Contains_prefix. rewrite <- (append_empty_r s) at 2. apply prefix_app. Qed.

Lemma Contains_app (a s b : string) : strings.Contains (a +:+ s +:+ b) s = true.
Proof. apply Contains_app_skip, Contains_app_keep, Contains_self. Qed.

End string_facts.

(** ** The Finding Set: [Add], [Merge], [ConvertToError] *)

Section errors_facts.
Context `{GoAny} `{Console}.

Import errors.

Lemma EqualsTo_spec (l candidate : LintRuleError) :
  EqualsTo l candidate = true <->
  ID l = ID candidate /\ Text l = Text candidate /\ ObjectID l = ObjectID candidate.
Proof.
  unfold EqualsTo. rewrite !andb_true_iff, !String.eqb_eq. tauto.
Qed.

Lemma IsEmpty_spec (l : LintRuleError) :
  IsEmpty l = true <-> ID l = EmptyString /\ Text l = EmptyString /\ ObjectID l = EmptyString.
Proof.
  unfold IsEmpty. rewrite !andb_true_iff, !String.eqb_eq. tauto.
Qed.

Lemma EqualsTo_IsEmpty (a b : LintRuleError) :
  EqualsTo a b = true -> IsEmpty b = IsEmpty a.
Proof.
  intros Heq. apply EqualsTo_spec in Heq as (Hi & Ht & Ho).
  unfold IsEmpty. now rewrite Hi, Ht, Ho.
Qed.

Lemma EqualsTo_trans_l (a b g : LintRuleError) :
  EqualsTo a b = true -> EqualsTo b g = EqualsTo a g.
Proof.
  intros Heq. apply EqualsTo_spec in Heq as (Hi & Ht & Ho).
  unfold EqualsTo. now rewrite Hi, Ht, Ho.
Qed.

Lemma EqualsTo_refl (a : LintRuleError) : EqualsTo a a = true.
Proof. apply EqualsTo_spec. auto. Qed.

Lemma Add_empty_finding (s : LintRuleErrorsList) (f : LintRuleError) :
  IsEmpty f = true -> Add s f = s.
Proof. intros He. unfold Add. now rewrite He. Qed.

Lemma Add_present (s : LintRuleErrorsList) (f g : LintRuleError) :
  In g (data s) -> EqualsTo f g = true -> Add s f = s.
Proof.
  intros Hin Heq. unfold Add, ContainsFunc.
  destruct (IsEmpty f); [reflexivity|].
  replace (existsb (EqualsTo f) (data s)) with true; [reflexivity|].
  symmetry. apply existsb_exists. eauto.
Qed.

Lemma Add_fresh (s : LintRuleErrorsList) (f : LintRuleError) :
  IsEmpty f = false -> existsb (EqualsTo f) (data s) = false ->
  Add s f = {| data := data s ++ [f] |}.
Proof. intros He Hn. unfold Add, ContainsFunc. now rewrite He, Hn. Qed.

Lemma Add_twice (s : LintRuleErrorsList) (a b : LintRuleError) :
  EqualsTo a b = true -> Add (Add s a) b = Add s a.
Proof.
  intros Heq.
  assert (Hflip : EqualsTo b a = true).
  { apply EqualsTo_spec in Heq as (Hi & Ht & Ho). apply EqualsTo_spec. auto. }
  destruct (IsEmpty a) eqn:Ha.
  - rewrite (Add_empty_finding s a Ha). apply Add_empty_finding.
    now rewrite (EqualsTo_IsEmpty a b Heq).
  - destruct (existsb (EqualsTo a) (data s)) eqn:Hex.
    + apply existsb_exists in Hex as (g & Hin & Hg).
      rewrite (Add_present s a g Hin Hg).
      apply (Add_present s b g Hin). now rewrite <- (EqualsTo_trans_l b a g Hflip).
    + rewrite (Add_fresh s a Ha Hex).
      apply (Add_present _ b a); [|exact Hflip].
      simpl. apply in_or_app. right. now left.
Qed.

(** C3: [Add] changes nothing when the finding is empty or when the set
    holds a finding with the same ID, Text and ObjectID, whatever the
    Values; so of two findings that differ in Value only the first is
    stored, and added to the empty set they make one entry (none when
    their three fields are empty). *)
Theorem C3_Add_is_noop_on_empty_and_equal :
  (forall (s : LintRuleErrorsList) (f : LintRuleError),
      IsEmpty f = true -> Add s f = s) /\
  (forall (s : LintRuleErrorsList) (f g : LintRuleError),
      In g (data s) -> EqualsTo f g = true -> Add s f = s) /\
  (forall a b : LintRuleError,
      EqualsTo a b = true <->
      ID a = ID b /\ Text a = Text b /\ ObjectID a = ObjectID b) /\
  (forall (s : LintRuleErrorsList) (a b : LintRuleError),
      EqualsTo a b = true -> Add (Add s a) b = Add s a) /\
  (forall a b : LintRuleError,
      EqualsTo a b = true ->
      data (Add (Add empty a) b) = if IsEmpty a then [] else [a]).
Proof.
  split; [exact Add_empty_finding|].
  split; [exact Add_present|].
  split; [exact EqualsTo_spec|].
  split; [exact Add_twice|].
  intros a b Heq. rewrite (Add_twice empty a b Heq).
  unfold Add, ContainsFunc. destruct (IsEmpty a); reflexivity.
Qed.

(** C4: [Merge] appends the entries of its argument as they are, and
    merging [A], [B] and [C] into the empty set gives [A ++ B ++ C]. *)
Theorem C4_Merge_appends_verbatim :
  (forall l e : LintRuleErrorsList, data (Merge l e) = data l ++ data e) /\
  (forall A B C : LintRuleErrorsList,
      data (Merge (Merge (Merge empty A) B) C) = data A ++ data B ++ data C).
Proof.
  split; [reflexivity|].
  intros A B C. simpl. now rewrite <- app_assoc.
Qed.

Lemma ConvertToError_nil (l : LintRuleErrorsList) :
  ConvertToError l = None <-> data l = [].
Proof. unfold ConvertToError. destruct (data l); split; congruence. Qed.

Lemma ConvertToError_some (l : LintRuleErrorsList) :
  data l <> [] -> ConvertToError l = Some (writeEntries (data l)).
Proof. unfold ConvertToError. destruct (data l); congruence. Qed.

(** What [fmt.Sprintf] does with one byte of the format that is not a
    percent sign. *)
Lemma Sprintf_String (c : ascii) (rest : string) (a : list string) :
  c <> "%"%char -> fmt.Sprintf (String c rest) a = String c (fmt.Sprintf rest a).
Proof.
  intros Hc.
  destruct c as [[] [] [] [] [] [] [] []]; try reflexivity; congruence.
Qed.

(** A format without percent sign is printed as it is. *)
Lemma Sprintf_no_verb (format : string) :
  strings.Contains format "%" = false -> fmt.Sprintf format [] = format.
Proof.
  induction format as [|c rest IH]; [reflexivity|].
  cbn [strings.Contains]. intros Hc. apply orb_false_iff in Hc as [Hp Hrest].
  rewrite Sprintf_String, (IH Hrest); [reflexivity|].
  intros E. subst c. unfold strings.HasPrefix in Hp. cbn [String.prefix] in Hp.
  destruct (ascii_dec "%" "%"); [destruct rest; discriminate | congruence].
Qed.

(** The text [ConvertToError] writes for one entry. *)
Lemma writeEntry_eq (err : LintRuleError) :
  writeEntry err =
  (emoji_monkey +:+
   (color_format FgHiBlue +:+ ("[#" +:+ ID err +:+ "]") +:+ color_unformat FgHiBlue) +:+
   strings.LF +:+ strings.TAB +:+ "Message" +:+ strings.TAB +:+ "- " +:+
   (color_format FgRed +:+ fmt.Sprintf (Text err) [] +:+ color_unformat FgRed) +:+
   strings.LF +:+ strings.TAB +:+ "Object" +:+ strings.TAB +:+ "- " +:+
   ObjectID err +:+ strings.LF) +:+
  match Value err with
  | Some v => strings.TAB +:+ "Value" +:+ strings.TAB +:+ "- " +:+ fmt_s v +:+ strings.LF
  | None => EmptyString
  end +:+ strings.LF.
Proof. unfold writeEntry. destruct (Value err); reflexivity. Qed.

Lemma writeEntry_contains (err : LintRuleError) :
  strings.Contains (Text err) "%" = false ->
  strings.Contains (writeEntry err) (ID err) = true /\
  strings.Contains (writeEntry err) (Text err) = true /\
  strings.Contains (writeEntry err) (ObjectID err) = true.
Proof.
  intros Hp. rewrite writeEntry_eq, (Sprintf_no_verb _ Hp).
  repeat split; apply Contains_app_keep.
  - apply Contains_app_skip, Contains_app_keep, Contains_app_skip, Contains_app_keep.
    apply Contains_app.
  - do 7 apply Contains_app_skip. apply Contains_app_keep, Contains_app.
  - do 13 apply Contains_app_skip. apply Contains_app_keep, Contains_self.
Qed.

(** Away from percent signs in the messages, the report holds the three
    fields of every entry. *)
Lemma ConvertToError_contains (l : LintRuleErrorsList) (err : LintRuleError) :
  In err (data l) ->
  strings.Contains (Text err) "%" = false ->
  exists report,
    ConvertToError l = Some report /\
    strings.Contains report (ID err) = true /\
    strings.Contains report (Text err) = true /\
    strings.Contains report (ObjectID err) = true.
Proof.
  intros Hin Hp. exists (writeEntries (data l)). split.
  - apply ConvertToError_some. intros E. now rewrite E in Hin.
  - induction (data l) as [|e es IH]; [contradiction|].
    cbn [writeEntries]. destruct Hin as [-> | Hin].
    + destruct (writeEntry_contains err Hp) as (Hi & Ht & Ho).
      repeat split; now apply Contains_app_keep.
    + destruct (IH Hin) as (Hi & Ht & Ho).
      repeat split; now apply Contains_app_skip.
Qed.

End errors_facts.

(** C9: a message is handed to the red [SprintfFunc] as the format, so a
    percent sign in it is read as a verb: the report of the single entry
    with message [ratio 50%d] does not hold that message. *)
Theorem C9_report_loses_a_message_with_percent :
  let entry :=
    {| errors.Text := "ratio 50%d"; errors.ID := "probes";
       errors.ObjectID := "modA"; errors.Value := None |} in
  exists report,
    errors.ConvertToError {| errors.data := [entry] |} = Some report /\
    strings.Contains report "ratio 50%!d(MISSING)" = true /\
    strings.Contains report (errors.Text entry) = false.
Proof.
  eexists. split; [reflexivity|]. split; vm_compute; reflexivity.
Qed.

(** ** [filepath.Walk] *)

Section walk_facts.
Import filepath.

(** Induction over a directory tree. *)
Lemma node_tree_ind (P : node -> Prop) :
  P File ->
  (forall msg, P (DirUnreadable msg)) ->
  (forall msg, P (Inaccessible msg)) ->
  (forall entries, Forall (fun e => P (snd e)) entries -> P (Dir entries)) ->
  forall n, P n.
Proof.
  intros HFile HUnreadable HInaccessible HDir.
  fix IH 1. intros [ | entries | msg | msg ];
    [exact HFile | | apply HUnreadable | apply HInaccessible].
  apply HDir. induction entries as [|[name child] rest IHrest]; constructor.
  - apply IH.
  - exact IHrest.
Qed.

Context {St : Type}.
Variable walkFn : WalkFunc (St := St).

(** [walk] on a directory: the call of [walkFn], then the loop over the
    names. *)
Lemma walk_Dir (path : string) (entries : list (string * node)) (st : St) :
  walk walkFn path (Dir entries) st =
  match walkFn path (Dir entries) None st with
  | (st1, Some err1) => (st1, Some err1)
  | (st1, None) => walkNames walkFn path entries st1
  end.
Proof.
  cbn [walk]. destruct (walkFn path (Dir entries) None st) as [st1 [err1|]]; [reflexivity|].
  revert st1. induction entries as [|[name child] rest IH]; intros st1; [reflexivity|].
  cbn [walkNames].
  destruct child as [ | sub | msg | msg ];
    repeat match goal with
           | |- context [walkFn ?p ?i ?e ?s] => destruct (walkFn p i e s) as [? [?|]]
           | |- context [walk walkFn ?p ?i ?s] => destruct (walk walkFn p i s) as [? [?|]]
           | |- context [is_SkipDir ?e] => destruct (is_SkipDir e)
           end; cbn [negb orb IsDir]; try reflexivity; apply IH.
Qed.

(** A property of the captured variables that every call of [walkFn]
    keeps is kept by the walk. *)
Lemma walk_invariant (P : St -> Prop) :
  (forall path info err st, P st -> P (fst (walkFn path info err st))) ->
  forall info path st, P st -> P (fst (walk walkFn path info st)).
Proof.
  intros Hfn. induction info as [ | msg | msg | entries IH ] using node_tree_ind;
    intros path st Hst; try (cbn [walk]; now apply Hfn).
  rewrite walk_Dir. pose proof (Hfn path (Dir entries) None st Hst) as H1.
  destruct (walkFn path (Dir entries) None st) as [st1 [err1|]]; [exact H1|].
  cbn [fst] in H1. revert st1 H1.
  induction IH as [|[name child] rest Hchild _ IHrest]; intros st1 H1; [exact H1|].
  cbn [walkNames]. cbn [snd] in Hchild.
  destruct child as [ | sub | msg | msg ].
  - pose proof (Hchild (Join path name) st1 H1) as H2.
    destruct (walk walkFn (Join path name) File st1) as [st2 [e|]]; cbn [fst] in H2;
      cbn [IsDir negb orb]; [exact H2 | now apply IHrest].
  - pose proof (Hchild (Join path name) st1 H1) as H2.
    destruct (walk walkFn (Join path name) (Dir sub) st1) as [st2 [e|]]; cbn [fst] in H2;
      cbn [IsDir negb orb]; [destruct (is_SkipDir e); cbn [negb]|]; auto.
  - pose proof (Hchild (Join path name) st1 H1) as H2.
    destruct (walk walkFn (Join path name) (DirUnreadable msg) st1) as [st2 [e|]];
      cbn [fst] in H2; cbn [IsDir negb orb]; [destruct (is_SkipDir e); cbn [negb]|]; auto.
  - pose proof (Hfn (Join path name) (Inaccessible msg)
                  (Some (PathError "lstat" (Join path name) msg)) st1 H1) as H2.
    destruct (walkFn (Join path name) (Inaccessible msg)
                (Some (PathError "lstat" (Join path name) msg)) st1) as [st2 [e|]];
      cbn [fst] in H2; [destruct (is_SkipDir e)|]; auto.
Qed.

Lemma Walk_invariant (P : St -> Prop) :
  (forall path info err st, P st -> P (fst (walkFn path info err st))) ->
  forall root fs st, P st -> P (fst (Walk walkFn root fs st)).
Proof.
  intros Hfn root fs st Hst. unfold Walk.
  assert (H1 : P (fst (match fs with
                       | Inaccessible msg => walkFn root fs (Some (PathError "lstat" root msg)) st
                       | _ => walk walkFn root fs st
                       end))).
  { destruct fs; try now apply walk_invariant. now apply Hfn. }
  destruct (match fs with
            | Inaccessible msg => walkFn root fs (Some (PathError "lstat" root msg)) st
            | _ => walk walkFn root fs st
            end) as [st' [e|]]; [destruct (is_SkipDir e)|]; exact H1.
Qed.

End walk_facts.

(** ** Module discovery (src/pkg/manager/manager.go) *)

Section discovery_facts.
Context `{GoAny} `{Console} `{ModulePkg}.

Import filepath discovery.

Lemma length_append (s t : string) :
  String.length (s +:+ t) = String.length s + String.length t.
Proof.
  induction s as [|c s IH]; [reflexivity|].
  rewrite append_String. simpl. now rewrite IH.
Qed.

(** A path below [path] is not [path]. *)
Lemma Join_neq (path name : string) : String.eqb (Join path name) path = false.
Proof.
  apply String.eqb_neq. intros E. apply (f_equal String.length) in E.
  unfold Join in E. rewrite !length_append in E. simpl in E. lia.
Qed.

Lemma visit_below_Dir (dir name : string) (sub : list (string * node)) (acc : list string) :
  manager.visit dir (Join dir name) (Dir sub) None acc =
  (if statOK (Dir sub) manager.ChartConfigFilename
   then acc ++ [Join dir name] else acc, Some SkipDir).
Proof.
  unfold manager.visit, manager.isExistsOnFilesystem.
  cbn [IsDir negb]. now rewrite Join_neq.
Qed.

Lemma visit_root (dir : string) (entries : list (string * node)) (acc : list string) :
  manager.visit dir dir (Dir entries) None acc = (acc, None).
Proof.
  unfold manager.visit. cbn [IsDir negb]. now rewrite String.eqb_refl.
Qed.

(** The loop over the entries of the search root, when nothing fails:
    the directories that hold the marker are recorded, and no entry is
    descended into. *)
Lemma walkNames_first_level (dir : string) (entries : list (string * node)) :
  forallb accessible entries = true ->
  forall acc,
    walkNames (manager.visit dir) dir entries acc =
    (acc ++ map (fun e => Join dir (fst e))
                (List.filter (isModuleDir manager.ChartConfigFilename) entries), None).
Proof.
  induction entries as [|[name child] rest IH]; intros Hok acc.
  - simpl. now rewrite app_nil_r.
  - cbn [forallb] in Hok. apply andb_true_iff in Hok as [Hchild Hrest].
    cbn [walkNames]. destruct child as [ | sub | msg | msg ]; try discriminate Hchild.
    + cbn [walk]. unfold manager.visit at 1. cbn [IsDir negb orb].
      rewrite (IH Hrest). reflexivity.
    + rewrite walk_Dir, visit_below_Dir. cbn [IsDir negb orb is_SkipDir].
      rewrite (IH Hrest). cbn [List.filter]. unfold isModuleDir at 2. cbn [snd fst IsDir andb].
      destruct (statOK (Dir sub) manager.ChartConfigFilename); cbn [map fst];
        [now rewrite <- app_assoc | reflexivity].
Qed.

(** The same loop when no entry is a directory with the marker: nothing
    is recorded, whether or not an error ends the loop. *)
Lemma walkNames_no_module (dir : string) (entries : list (string * node)) :
  (forall e, In e entries -> isModuleDir manager.ChartConfigFilename e = false) ->
  forall acc, fst (walkNames (manager.visit dir) dir entries acc) = acc.
Proof.
  induction entries as [|[name child] rest IH]; intros Hno acc; [reflexivity|].
  assert (Hrest : forall e, In e rest -> isModuleDir manager.ChartConfigFilename e = false)
    by (intros e He; apply Hno; now right).
  pose proof (Hno (name, child) (or_introl eq_refl)) as Hchild.
  cbn [walkNames]. destruct child as [ | sub | msg | msg ].
  - cbn [walk]. unfold manager.visit at 1. cbn [IsDir negb orb]. now apply IH.
  - rewrite walk_Dir, visit_below_Dir. cbn [IsDir negb orb is_SkipDir].
    unfold isModuleDir in Hchild. cbn [snd IsDir andb] in Hchild. rewrite Hchild.
    now apply IH.
  - cbn [walk]. unfold manager.visit at 1. cbn [IsDir negb orb is_SkipDir]. reflexivity.
  - unfold manager.visit at 1. cbn [is_SkipDir]. reflexivity.
Qed.

Lemma getModulePaths_Dir (dir : string) (entries : list (string * node)) :
  manager.getModulePaths dir (Dir entries) =
  match walkNames (manager.visit dir) dir entries [] with
  | (chartDirs, Some err) => if is_SkipDir err then (chartDirs, None) else ([], Some err)
  | (chartDirs, None) => (chartDirs, None)
  end.
Proof.
  unfold manager.getModulePaths, Walk. rewrite walk_Dir, visit_root.
  destruct (walkNames (manager.visit dir) dir entries []) as [chartDirs [err|]];
    [destruct (is_SkipDir err)|]; reflexivity.
Qed.

Lemma getModulePaths_first_level (dir : string) (entries : list (string * node)) :
  forallb accessible entries = true ->
  manager.getModulePaths dir (Dir entries) =
  (map (fun e => Join dir (fst e))
       (List.filter (isModuleDir manager.ChartConfigFilename) entries), None).
Proof.
  intros Hok. rewrite getModulePaths_Dir, (walkNames_first_level dir entries Hok). reflexivity.
Qed.

End discovery_facts.

Section discovery_trace.
Context {St : Type}.
Variable walkFn : filepath.WalkFunc (St := St).

Import filepath discovery.

(** Logging the paths does not change what the walk does. *)
Lemma walk_traced (info : node) :
  forall path st log,
  exists log',
    walk (traced walkFn) path info (st, log) =
    ((fst (walk walkFn path info st), log'), snd (walk walkFn path info st)).
Proof.
  induction info as [ | msg | msg | entries IH ] using node_tree_ind; intros path st log;
    try (cbn [walk]; unfold traced; cbn [fst snd];
         match goal with
         | |- context [walkFn ?p ?i ?e ?s] => destruct (walkFn p i e s) as [st' e']
         end; eexists; reflexivity).
  rewrite !walk_Dir. unfold traced at 1. cbn [fst snd].
  destruct (walkFn path (Dir entries) None st) as [st1 [err1|]]; [eexists; reflexivity|].
  generalize (log ++ [path]). clear log. revert st1.
  induction IH as [|[name child] rest Hchild _ IHrest]; intros st1 log;
    [eexists; reflexivity|].
  cbn [walkNames]. cbn [snd] in Hchild.
  destruct child as [ | sub | msg | msg ].
  1-3: destruct (Hchild (Join path name) st1 log) as [log1 ->];
       match goal with
       | |- context [walk walkFn ?p ?i ?s] => destruct (walk walkFn p i s) as [st2 [e|]]
       end; cbn [fst snd IsDir negb orb];
       [try destruct (is_SkipDir e); cbn [negb]; try (eexists; reflexivity); apply IHrest
       | apply IHrest].
  unfold traced at 1. cbn [fst snd].
  destruct (walkFn (Join path name) (Inaccessible msg)
              (Some (PathError "lstat" (Join path name) msg)) st1) as [st2 [e|]];
    [destruct (is_SkipDir e); [apply IHrest | eexists; reflexivity] | apply IHrest].
Qed.

End discovery_trace.

Section discovery_claims.
Context `{GoAny} `{Console} `{ModulePkg}.

Import filepath discovery.

(** The paths visited at the first level, when nothing fails: every entry
    of the search root, and nothing below. *)
Lemma walkNames_first_level_traced (dir : string) (entries : list (string * node)) :
  forallb accessible entries = true ->
  forall acc log,
    snd (fst (walkNames (traced (manager.visit dir)) dir entries (acc, log))) =
    log ++ map (fun e => Join dir (fst e)) entries.
Proof.
  induction entries as [|[name child] rest IH]; intros Hok acc log.
  - simpl. now rewrite app_nil_r.
  - cbn [forallb] in Hok. apply andb_true_iff in Hok as [Hchild Hrest].
    cbn [walkNames]. destruct child as [ | sub | msg | msg ]; try discriminate Hchild.
    + cbn [walk]. unfold traced at 1, manager.visit at 1. cbn [fst snd IsDir negb orb].
      rewrite (IH Hrest). cbn [map fst]. now rewrite <- app_assoc.
    + rewrite walk_Dir. unfold traced at 1. cbn [fst snd]. rewrite visit_below_Dir.
      cbn [IsDir negb orb is_SkipDir].
      rewrite (IH Hrest). cbn [map fst]. now rewrite <- app_assoc.
Qed.

Lemma visited_first_level (dir : string) (entries : list (string * node)) :
  forallb accessible entries = true ->
  visited (manager.visit dir) dir (Dir entries) [] =
  dir :: map (fun e => Join dir (fst e)) entries.
Proof.
  intros Hok. unfold visited, Walk. rewrite walk_Dir.
  unfold traced at 1. cbn [fst snd]. rewrite visit_root.
  pose proof (walkNames_first_level_traced dir entries Hok [] ([] ++ [dir])) as Hlog.
  destruct (walkNames (traced (manager.visit dir)) dir entries ([], [] ++ [dir]))
    as [[acc log] [err|]]; [destruct (is_SkipDir err)|]; exact Hlog.
Qed.

(** C5, as the code has it: when nothing fails at the first level,
    discovery returns the entries of the search root that are directories
    holding the marker, in the order of the walk, and nothing from below
    them; for [root/modA/Chart.yaml] with
    [root/modA/charts/nested/Chart.yaml] that is [root/modA] alone. *)
Theorem C5_discovery_records_first_level_modules :
  (forall (dir : string) (entries : list (string * node)),
      forallb accessible entries = true ->
      manager.getModulePaths dir (Dir entries) =
      (map (fun e => Join dir (fst e))
           (List.filter (isModuleDir manager.ChartConfigFilename) entries), None)) /\
  manager.getModulePaths "root"
    (Dir [("modA",
           Dir [("Chart.yaml", File);
                ("charts", Dir [("nested", Dir [("Chart.yaml", File)])])])])
  = (["root/modA"], None).
Proof.
  split; [exact getModulePaths_first_level | reflexivity].
Qed.

(** C6, as the code has it: when nothing fails at the first level, the
    walk visits the search root and its entries and no other path, so a
    directory without the marker is not descended into, and such a
    directory adds nothing to the result whatever lies below it. *)
Theorem C6_discovery_descends_into_the_root_only :
  (forall (dir : string) (entries : list (string * node)),
      forallb accessible entries = true ->
      visited (manager.visit dir) dir (Dir entries) [] =
      dir :: map (fun e => Join dir (fst e)) entries) /\
  (forall (dir name : string) (before after sub : list (string * node)),
      forallb accessible (before ++ after) = true ->
      statOK (Dir sub) manager.ChartConfigFilename = false ->
      manager.getModulePaths dir (Dir (before ++ (name, Dir sub) :: after)) =
      manager.getModulePaths dir (Dir (before ++ after))).
Proof.
  split; [exact visited_first_level|].
  intros dir name before after sub Hok Hno.
  rewrite !getModulePaths_first_level; [| exact Hok |].
  - rewrite !List.filter_app. cbn [List.filter]. unfold isModuleDir at 2.
    cbn [snd IsDir andb]. now rewrite Hno.
  - rewrite forallb_app in *. cbn [forallb]. apply andb_true_iff in Hok as [-> ->].
    reflexivity.
Qed.

(** In manager.go the search root is never among the modules returned,
    whatever lies at it; when no entry of the root is a directory with
    the marker the result is empty, whether or not the root itself holds
    the marker; a root that holds nothing but the marker yields no
    module. *)
Lemma getModulePaths_never_returns_the_root :
  (forall (dir : string) (fs : node),
      ~ In dir (fst (manager.getModulePaths dir fs))) /\
  (forall (dir : string) (entries : list (string * node)),
      (forall e, In e entries -> isModuleDir manager.ChartConfigFilename e = false) ->
      fst (manager.getModulePaths dir (Dir entries)) = []) /\
  manager.getModulePaths "root" (Dir [("Chart.yaml", File)]) = ([], None).
Proof.
  split; [|split; [|reflexivity]].
  - intros dir fs. unfold manager.getModulePaths.
    pose proof (Walk_invariant (manager.visit dir) (fun chartDirs => ~ In dir chartDirs)) as Hinv.
    specialize (Hinv) with (root := dir) (fs := fs) (st := []).
    destruct (Walk (manager.visit dir) dir fs []) as [chartDirs [err|]];
      [intros []|].
    apply Hinv; [|intros []].
    intros path info err st Hst. unfold manager.visit.
    destruct err; [exact Hst|].
    destruct (negb (IsDir info)); [exact Hst|].
    destruct (String.eqb path dir) eqn:E; [exact Hst|].
    destruct (manager.isExistsOnFilesystem info manager.ChartConfigFilename);
      [|exact Hst].
    cbn [fst]. intros Hin. apply in_app_or in Hin as [Hin | [Hin | []]]; [now apply Hst|].
    apply String.eqb_neq in E. congruence.
  - intros dir entries Hno. rewrite getModulePaths_Dir.
    pose proof (walkNames_no_module dir entries Hno []) as Hacc.
    destruct (walkNames (manager.visit dir) dir entries []) as [chartDirs [err|]];
      [destruct (is_SkipDir err)|]; cbn [fst] in *; auto.
Qed.

End discovery_claims.

Section discovery_examples.
Import filepath discovery.

(** Two findings that differ in their payload only. *)
Lemma C3_witness_two_payloads :
  let a := {| errors.Text := "liveness probe is missing"; errors.ID := "probes";
              errors.ObjectID := "modA"; errors.Value := Some "first" |} in
  let b := {| errors.Text := "liveness probe is missing"; errors.ID := "probes";
              errors.ObjectID := "modA"; errors.Value := Some "second" |} in
  errors.EqualsTo a b = true /\
  errors.data (errors.Add (errors.Add errors.empty a) b) = [a].
Proof.
  intros a b. split; [reflexivity|].
  exact (proj2 (proj2 (proj2 (proj2 C3_Add_is_noop_on_empty_and_equal))) a b eq_refl).
Defined.

(** A marker two levels below the search root, under a directory without
    marker: the specification's discovery records it, the code returns
    nothing. *)
Lemma C5_counterexample_marker_at_depth_two :
  let fs := Dir [("x", Dir [("modB", Dir [("Chart.yaml", File)])])] in
  specified manager.ChartConfigFilename "root" fs = ["root/x/modB"] /\
  manager.getModulePaths "root" fs = ([], None) /\
  fst (manager.getModulePaths "root" fs) <> specified manager.ChartConfigFilename "root" fs.
Proof.
  intros fs. split; [reflexivity|]. split; [reflexivity|].
  vm_compute. discriminate.
Qed.

Lemma C5_witness_two_modules_and_a_file :
  let entries :=
    [("README.md", File);
     ("modA", Dir [("Chart.yaml", File); ("templates", Dir [])]);
     ("docs", Dir [("index.md", File)]);
     ("modB", Dir [("Chart.yaml", File)])] in
  forallb accessible entries = true /\
  manager.getModulePaths "root" (Dir entries) = (["root/modA"; "root/modB"], None).
Proof.
  intros entries. split; [reflexivity|].
  exact (proj1 C5_discovery_records_first_level_modules "root" entries eq_refl).
Defined.

(** A directory without the marker is visited, what it contains is not,
    and the module three levels down is not found. *)
Lemma C6_counterexample_plain_directory_is_skipped :
  let b := Dir [("c", Dir [("Chart.yaml", File)])] in
  let fs := Dir [("a", Dir [("b", b)])] in
  In "root/a" (visited (manager.visit "root") "root" fs []) /\
  statOK (Dir [("b", b)]) manager.ChartConfigFilename = false /\
  ~ In "root/a/b" (visited (manager.visit "root") "root" fs []) /\
  specified manager.ChartConfigFilename "root" fs = ["root/a/b/c"] /\
  manager.getModulePaths "root" fs = ([], None).
Proof.
  intros b fs. split; [vm_compute; tauto|]. split; [reflexivity|].
  split; [|split; reflexivity].
  vm_compute. intros [E | [E | []]]; discriminate E.
Qed.

Lemma C6_witness_docs_directory :
  let sub := [("guide", Dir [("Chart.yaml", File)])] in
  let before := [("modA", Dir [("Chart.yaml", File)])] in
  let after := [("LICENSE", File)] in
  forallb accessible (before ++ after) = true /\
  statOK (Dir sub) manager.ChartConfigFilename = false /\
  visited (manager.visit "root") "root" (Dir (before ++ ("docs", Dir sub) :: after)) [] =
  ["root"; "root/modA"; "root/docs"; "root/LICENSE"] /\
  manager.getModulePaths "root" (Dir (before ++ ("docs", Dir sub) :: after)) =
  manager.getModulePaths "root" (Dir (before ++ after)).
Proof.
  intros sub before after. split; [reflexivity|]. split; [reflexivity|]. split.
  - exact (proj1 C6_discovery_descends_into_the_root_only "root"
             (before ++ ("docs", Dir sub) :: after) eq_refl).
  - exact (proj2 C6_discovery_descends_into_the_root_only "root" "docs"
             before after sub eq_refl eq_refl).
Defined.

(** The revision of part_000 walks the whole tree, takes the search root
    for a module when it holds [module.yaml], and asks a chart for a
    [hooks] or an [images] entry. *)
Example rev_discovery_walks_the_whole_tree :
  manager_rev.getModulePaths "root"
    (Dir [("module.yaml", File);
          ("x", Dir [("modB", Dir [("module.yaml", File);
                                   ("charts", Dir [("nested", Dir [("module.yaml", File)])])])])])
  = (["root"; "root/x/modB"; "root/x/modB/charts/nested"], None).
Proof. reflexivity. Qed.

Example rev_discovery_asks_for_hooks_or_images :
  manager_rev.getModulePaths "root"
    (Dir [("modA", Dir [("Chart.yaml", File)]);
          ("modB", Dir [("Chart.yaml", File); ("images", Dir [])])])
  = (["root/modB"], None).
Proof. reflexivity. Qed.

(** An entry that cannot be examined ends the discovery with an error
    that names it, and no module is returned. *)
Example discovery_stops_at_an_error :
  manager.getModulePaths "root"
    (Dir [("modA", Dir [("Chart.yaml", File)]);
          ("lost", Inaccessible "permission denied");
          ("modB", Dir [("Chart.yaml", File)])])
  = ([], Some (wrapError "file access 'root/lost': "
                 (PathError "lstat" "root/lost" "permission denied"))).
Proof. reflexivity. Qed.

End discovery_examples.

(** ** The linter registry: [getEnabledLinters] *)

Section registry_facts.
Context `{GoAny} `{Console} `{ModulePkg}.

Import manager.

(** With the map literal as [resultLintersSet], the loop over the enable
    list leaves [m.lintersMap] alone and stores the known names, in lower
    case. *)
Lemma enable_loop_literal (lm : gmap string Linter) (names : list string) :
  let h := fold_left (enableStep literalRef) names (lm, ∅) in
  fst h = lm /\
  forall k l, snd h !! k = Some l <->
              (In k (map strings.ToLower names) /\ lm !! k = Some l).
Proof.
  induction names as [|name names IH] using rev_ind; cbn zeta.
  - split; [reflexivity|]. intros k l. cbn [fold_left snd map].
    rewrite lookup_empty. split; [discriminate | intros [[] _]].
  - rewrite fold_left_app. cbn [fold_left].
    destruct (fold_left (enableStep literalRef) names (lm, ∅)) as [lm' set] eqn:E.
    cbn zeta in IH. cbn [fst snd] in IH. destruct IH as [-> IH].
    unfold enableStep. cbn [fst].
    destruct (lm !! strings.ToLower name) as [linter|] eqn:Hknown; cbn [update fst snd].
    + split; [reflexivity|]. intros k l. rewrite map_app, in_app_iff. cbn [map In].
      destruct (decide (strings.ToLower name = k)) as [<- | Hne].
      * rewrite lookup_insert_eq, Hknown. split; [intros [= <-]; auto|intros [_ ?]; assumption].
      * rewrite lookup_insert_ne by assumption. rewrite IH. tauto.
    + split; [reflexivity|]. intros k l. rewrite map_app, in_app_iff. cbn [map In].
      rewrite IH. split; [tauto|]. intros [[Hin | [<- | []]] Hl]; [tauto|congruence].
Qed.

(** The loop over the disable list then deletes the names that are keys
    of [m.lintersMap] as they are written. *)
Lemma disable_loop_literal (lm set : gmap string Linter) (names : list string) :
  let h := fold_left (disableStep literalRef) names (lm, set) in
  fst h = lm /\
  forall k l, snd h !! k = Some l <->
              (set !! k = Some l /\ ~ (In k names /\ is_Some (lm !! k))).
Proof.
  induction names as [|name names IH] using rev_ind; cbn zeta.
  - split; [reflexivity|]. intros k l. cbn [fold_left snd In]. tauto.
  - rewrite fold_left_app. cbn [fold_left].
    destruct (fold_left (disableStep literalRef) names (lm, set)) as [lm' set'] eqn:E.
    cbn zeta in IH. cbn [fst snd] in IH. destruct IH as [-> IH].
    unfold disableStep. cbn [fst].
    destruct (lm !! name) as [linter|] eqn:Hknown; cbn [update fst snd].
    + split; [reflexivity|]. intros k l. rewrite in_app_iff. cbn [In].
      destruct (decide (name = k)) as [<- | Hne].
      * rewrite lookup_delete_eq. split; [discriminate|].
        intros [_ Hnot]. exfalso. apply Hnot. rewrite Hknown. split; [tauto | eauto].
      * rewrite lookup_delete_ne by assumption. rewrite IH. tauto.
    + split; [reflexivity|]. intros k l. rewrite in_app_iff. cbn [In].
      rewrite IH. split; [|tauto]. intros [Hs Hnot]. split; [exact Hs|].
      intros [[Hin | [<- | []]] Hk]; [tauto|].
      rewrite Hknown in Hk. now destruct Hk.
Qed.

Lemma getEnabledLinters_disableAll (m : Manager) (k : string) (l : Linter) :
  DisableAll (cfg m) = true ->
  fst (getEnabledLinters m) !! k = Some l <->
  lintersMap m !! k = Some l /\
  In k (map strings.ToLower (Enable (cfg m))) /\
  ~ In k (Disable (cfg m)).
Proof.
  intros Hall. unfold getEnabledLinters. rewrite Hall. cbn [fst deref].
  destruct (enable_loop_literal (lintersMap m) (Enable (cfg m))) as [Hlm Hset].
  destruct (fold_left (enableStep literalRef) (Enable (cfg m)) (lintersMap m, ∅))
    as [lm set] eqn:E.
  cbn [fst snd] in Hlm, Hset. subst lm.
  destruct (disable_loop_literal (lintersMap m) set (Disable (cfg m))) as [_ Hres].
  cbn zeta in Hres. rewrite Hres, Hset. split.
  - intros [[Hin Hl] Hnot]. repeat split; try assumption.
    intros Hd. apply Hnot. split; [exact Hd | eauto].
  - intros (Hl & Hin & Hnot). tauto.
Qed.

(** C8: with [DisableAll] the enabled set holds a name exactly when it is
    a key of the catalogue, is the lower case of a name of the enable
    list and is not written in the disable list; with the enable list
    [copyright] alone it is the copyright linter and no other. *)
Theorem C8_disableAll_enables_the_listed_linters :
  (forall (m : Manager) (k : string) (l : Linter),
      DisableAll (cfg m) = true ->
      fst (getEnabledLinters m) !! k = Some l <->
      lintersMap m !! k = Some l /\
      In k (map strings.ToLower (Enable (cfg m))) /\
      ~ In k (Disable (cfg m))) /\
  (forall (m : Manager) (c : Linter),
      DisableAll (cfg m) = true ->
      Enable (cfg m) = ["copyright"] ->
      Disable (cfg m) = [] ->
      lintersMap m !! "copyright" = Some c ->
      fst (getEnabledLinters m) = {["copyright" := c]} /\
      forall result, isLinterList (fst (getEnabledLinters m)) result -> result = [c]).
Proof.
  split; [exact getEnabledLinters_disableAll|].
  intros m c Hall Hen Hdis Hc.
  assert (Hset : fst (getEnabledLinters m) = {["copyright" := c]}).
  { apply map_eq. intros k. apply option_eq. intros l.
    rewrite (getEnabledLinters_disableAll m k l Hall), Hen, Hdis.
    rewrite lookup_singleton_Some. cbn [map In]. change (strings.ToLower "copyright") with "copyright".
    split.
    - intros (Hl & [<- | []] & _). split; [reflexivity | congruence].
    - intros [<- <-]. tauto. }
  split; [exact Hset|].
  intros result Hperm. unfold isLinterList in Hperm. rewrite Hset, map_to_list_singleton in Hperm.
  cbn [map snd] in Hperm. apply Permutation_sym in Hperm.
  now apply Permutation_length_1_inv in Hperm.
Qed.

End registry_facts.

Section registry_examples.
Import manager.

Lemma C8_witness_copyright_alone :
  let m := configured {| DisableAll := true; EnableAll := false;
                         Enable := ["copyright"]; Disable := [] |} in
  let c := exampleLinter "copyright" (fun _ => (errors.empty, None)) in
  lintersMap m !! "copyright" = Some c /\
  fst (getEnabledLinters m) = {["copyright" := c]}.
Proof.
  intros m c.
  assert (Hc : lintersMap m !! "copyright" = Some c) by (vm_compute; reflexivity).
  split; [exact Hc|].
  exact (proj1 (proj2 C8_disableAll_enables_the_listed_linters m c
                  eq_refl eq_refl eq_refl Hc)).
Defined.

(** The enable list is read without regard to case. *)
Example enable_ignores_case :
  map fst (map_to_list (fst (getEnabledLinters
    (configured {| DisableAll := true; EnableAll := false;
                   Enable := ["CopyRight"; "helm"]; Disable := [] |}))))
  = ["copyright"].
Proof. vm_compute. reflexivity. Qed.

(** The disable list is read as it is written: [Copyright] is no key of
    the catalogue and disables nothing. *)
Example disable_minds_case :
  map fst (map_to_list (fst (getEnabledLinters
    (configured {| DisableAll := true; EnableAll := false;
                   Enable := ["copyright"; "probes"]; Disable := ["Copyright"; "probes"] |}))))
  = ["copyright"].
Proof. vm_compute. reflexivity. Qed.

(** Without [DisableAll] the result is [m.lintersMap] itself, and what is
    disabled leaves the catalogue too. *)
Example disable_shares_the_catalogue :
  let m := configured {| DisableAll := false; EnableAll := false;
                         Enable := []; Disable := ["probes"] |} in
  fst (getEnabledLinters m) = lintersMap (snd (getEnabledLinters m)) /\
  lintersMap (snd (getEnabledLinters m)) !! "probes" = None /\
  lintersMap m !! "probes" <> None.
Proof. vm_compute. repeat split. discriminate. Qed.

End registry_examples.

(** ** Groups of tasks *)

Section errgroup_facts.
Context {S : Type}.

Import errgroup.

Lemma inOrder_app (ts1 ts2 : list (task (S := S))) (s : S) (e : option error) :
  inOrder (ts1 ++ ts2) s e =
  inOrder ts2 (fst (inOrder ts1 s e)) (snd (inOrder ts1 s e)).
Proof.
  revert s e. induction ts1 as [|t ts1 IH]; intros s e; [reflexivity|].
  cbn [app inOrder]. destruct (t s) as [s' e']. apply IH.
Qed.

(** With a limit other than zero, the tasks can run one after the other. *)
Lemma Wait_inOrder (limit : Z) (tasks : list (task (S := S))) (s : S) :
  limit <> 0%Z ->
  Wait limit tasks s (fst (inOrder tasks s None)) (snd (inOrder tasks s None)).
Proof.
  intros Hlimit. unfold Wait. generalize (@None error) as e. revert s.
  induction tasks as [|t tasks IH]; intros s e; [apply rtc_refl|].
  cbn [inOrder]. destruct (t s) as [s' e'] eqn:Et.
  eapply rtc_l; [apply step_Go; unfold admits; cbn [length]; lia|].
  eapply rtc_l; [apply (step_done limit t tasks [] [] s e s' e' Et)|].
  apply IH.
Qed.

Lemma accounted_step (limit : Z) (tasks : list (task (S := S))) (s0 : S) (st st' : state) :
  accounted tasks s0 st -> step limit st st' -> accounted tasks s0 st'.
Proof.
  intros (finished & Hperm & Hrun) Hstep. destruct Hstep as [t q r s e _ | t q r1 r2 s e s' e' Ht];
    cbn [running queue shared firstErr] in *.
  - exists finished. cbn [running queue shared firstErr]. split; [|exact Hrun].
    rewrite <- Hperm. apply Permutation_app_head.
    cbn [app]. apply Permutation_middle.
  - exists (finished ++ [t]). cbn [running queue shared firstErr]. split.
    + rewrite <- Hperm, <- !app_assoc. apply Permutation_app_head.
      cbn [app]. apply Permutation_middle.
    + rewrite inOrder_app, Hrun. cbn [fst snd inOrder]. now rewrite Ht.
Qed.

(** Whatever the interleaving, [g.Wait()] finds the shared state that
    running the tasks one after the other, in some order, leaves. *)
Lemma Wait_some_order (limit : Z) (tasks : list (task (S := S))) (s s' : S) (e' : option error) :
  Wait limit tasks s s' e' ->
  exists order, Permutation order tasks /\ inOrder order s None = (s', e').
Proof.
  unfold Wait. intros Hrtc.
  assert (Hacc : accounted tasks s
                   {| queue := []; running := []; shared := s'; firstErr := e' |}).
  { revert Hrtc. apply (rtc_ind_r (fun st => accounted tasks s st)).
    - exists []. split; [reflexivity | reflexivity].
    - intros st st' _ Hstep Hacc. exact (accounted_step limit tasks s st st' Hacc Hstep). }
  destruct Hacc as (finished & Hperm & Hrun). cbn [running queue shared firstErr] in *.
  exists finished. rewrite !app_nil_r in Hperm. auto.
Qed.

End errgroup_facts.

(** ** The orchestrator: [Manager.Run] *)

Section Run_facts.
Context `{GoAny} `{Console} `{ModulePkg}.

Import errors manager orchestration.

Lemma runTask_data (l : Linter) (md : module_Module) (result : LintRuleErrorsList) :
  data (fst (runTask l md result)) = data result ++ findings l md.
Proof.
  unfold runTask, findings. destruct (Run l md) as [errs [e|]]; cbn [fst].
  - now rewrite app_nil_r.
  - destruct (ConvertToError errs) eqn:E; cbn [fst]; [reflexivity|].
    apply ConvertToError_nil in E. rewrite E. now rewrite app_nil_r.
Qed.

Lemma added_runTask (l : Linter) (md : module_Module) :
  added (runTask l md) = findings l md.
Proof. unfold added. now rewrite runTask_data. Qed.

Lemma inOrder_data (order : list (errgroup.task (S := LintRuleErrorsList)))
    (s : LintRuleErrorsList) (e : option error) :
  (forall t, In t order -> forall s', data (fst (t s')) = data s' ++ added t) ->
  data (fst (errgroup.inOrder order s e)) = data s ++ flat_map added order.
Proof.
  revert s e. induction order as [|t order IH]; intros s e Hadd.
  - simpl. now rewrite app_nil_r.
  - cbn [errgroup.inOrder flat_map].
    pose proof (Hadd t (or_introl eq_refl) s) as Ht.
    destruct (t s) as [s1 e1]. cbn [fst] in Ht.
    rewrite IH by (intros t' Hin; apply Hadd; now right).
    now rewrite Ht, <- app_assoc.
Qed.

Lemma flat_map_added {A : Type} (f : A -> errgroup.task (S := LintRuleErrorsList))
    (g : A -> list LintRuleError) (xs : list A) :
  (forall x, added (f x) = g x) ->
  flat_map added (map f xs) = flat_map g xs.
Proof.
  intros Hfg. induction xs as [|x xs IH]; [reflexivity|].
  cbn [map flat_map]. now rewrite Hfg, IH.
Qed.

(** One group: whatever the interleaving, the result grows by the
    findings of every task of the group. *)
Lemma Wait_data {A : Type} (limit : Z) (f : A -> errgroup.task (S := LintRuleErrorsList))
    (g : A -> list LintRuleError) (xs : list A)
    (result result1 : LintRuleErrorsList) (e : option error) :
  (forall x result', data (fst (f x result')) = data result' ++ g x) ->
  errgroup.Wait limit (map f xs) result result1 e ->
  Permutation (data result1) (data result ++ flat_map g xs).
Proof.
  intros Hf Hwait.
  assert (Hadded : forall x, added (f x) = g x).
  { intros x. unfold added. now rewrite Hf. }
  apply Wait_some_order in Hwait as (order & Hperm & Hrun).
  apply (f_equal fst) in Hrun. cbn [fst] in Hrun. rewrite <- Hrun.
  rewrite inOrder_data.
  - apply Permutation_app_head. rewrite <- (flat_map_added f g xs Hadded).
    now apply Permutation_flat_map.
  - intros t Hin s'. apply (Permutation_in _ Hperm) in Hin.
    apply in_map_iff in Hin as (x & <- & _). now rewrite Hadded, Hf.
Qed.

Lemma inOrder_map_data {A : Type} (f : A -> errgroup.task (S := LintRuleErrorsList))
    (g : A -> list LintRuleError) (xs : list A) (result : LintRuleErrorsList)
    (e : option error) :
  (forall x result', data (fst (f x result')) = data result' ++ g x) ->
  data (fst (errgroup.inOrder (map f xs) result e)) = data result ++ flat_map g xs.
Proof.
  intros Hf. rewrite inOrder_data.
  - f_equal. apply flat_map_added. intros x. unfold added. now rewrite Hf.
  - intros t Hin s'. apply in_map_iff in Hin as (x & <- & _).
    unfold added. now rewrite !Hf.
Qed.

(** *** The revision of manager.go: a group per linter *)

Lemma RunLoop_data (modules : list module_Module) (ls : list Linter)
    (result result' : LintRuleErrorsList) :
  RunLoop modules ls result result' ->
  Permutation (data result')
              (data result ++ flat_map (fun l => flat_map (findings l) modules) ls).
Proof.
  induction 1 as [result | l ls result result1 result2 e Hwait _ IH].
  - simpl. now rewrite app_nil_r.
  - rewrite IH. cbn [flat_map]. rewrite app_assoc. apply Permutation_app_tail.
    exact (Wait_data _ (runTask l) (findings l) modules _ _ _ (runTask_data l) Hwait).
Qed.

Lemma RunInOrder_loop_data (modules : list module_Module) (ls : list Linter)
    (result : LintRuleErrorsList) :
  data (fold_left
          (fun result l => fst (errgroup.inOrder (map (runTask l) modules) result None))
          ls result)
  = data result ++ flat_map (fun l => flat_map (findings l) modules) ls.
Proof.
  revert result. induction ls as [|l ls IH]; intros result.
  - simpl. now rewrite app_nil_r.
  - cbn [fold_left flat_map]. rewrite IH, app_assoc. f_equal.
    apply inOrder_map_data, runTask_data.
Qed.

Lemma RunLoop_inOrder (modules : list module_Module) (ls : list Linter)
    (result : LintRuleErrorsList) :
  RunLoop modules ls result
    (fold_left
       (fun result l => fst (errgroup.inOrder (map (runTask l) modules) result None))
       ls result).
Proof.
  revert result. induction ls as [|l ls IH]; intros result; [constructor|].
  cbn [fold_left]. eapply RunLoop_cons; [|apply IH].
  apply Wait_inOrder. unfold modulesLimit. lia.
Qed.

(** *** The revision of part_000: a group per module *)

Lemma rev_RunLoop_data (limit : Z) (linters : list Linter) (mds : list module_Module)
    (result result' : LintRuleErrorsList) :
  manager_rev.RunLoop limit linters mds result result' ->
  Permutation (data result')
              (data result ++ flat_map (fun md => flat_map (fun l => findings l md) linters) mds).
Proof.
  induction 1 as [result | md mds result result1 result2 e Hwait _ IH].
  - simpl. now rewrite app_nil_r.
  - rewrite IH. cbn [flat_map]. rewrite app_assoc. apply Permutation_app_tail.
    exact (Wait_data _ (fun l => runTask l md) (fun l => findings l md) linters _ _ _
             (fun l => runTask_data l md) Hwait).
Qed.

Lemma rev_RunInOrder_loop_data (linters : list Linter) (mds : list module_Module)
    (result : LintRuleErrorsList) :
  data (fold_left
          (fun result md =>
             fst (errgroup.inOrder (map (fun l => runTask l md) linters) result None))
          mds result)
  = data result ++ flat_map (fun md => flat_map (fun l => findings l md) linters) mds.
Proof.
  revert result. induction mds as [|md mds IH]; intros result.
  - simpl. now rewrite app_nil_r.
  - cbn [fold_left flat_map]. rewrite IH, app_assoc. f_equal.
    apply (inOrder_map_data (fun l => runTask l md) (fun l => findings l md)).
    intros l. apply runTask_data.
Qed.

Lemma rev_RunLoop_inOrder (limit : Z) (linters : list Linter) (mds : list module_Module)
    (result : LintRuleErrorsList) :
  limit <> 0%Z ->
  manager_rev.RunLoop limit linters mds result
    (fold_left
       (fun result md =>
          fst (errgroup.inOrder (map (fun l => runTask l md) linters) result None))
       mds result).
Proof.
  intros Hlimit. revert result. induction mds as [|md mds IH]; intros result; [constructor|].
  cbn [fold_left]. eapply manager_rev.RunLoop_cons; [|apply IH].
  now apply Wait_inOrder.
Qed.

Lemma findings_in (l : Linter) (md : module_Module) (errs : LintRuleErrorsList)
    (f : LintRuleError) :
  Run l md = (errs, None) -> In f (data errs) -> In f (findings l md).
Proof. intros Hrun Hin. unfold findings. now rewrite Hrun. Qed.

End Run_facts.

Section Run_claims.
Context `{GoAny} `{Console} `{ModulePkg}.

Import errors manager orchestration.

(** C1: [Run] returns, and whatever the interleaving of the tasks its
    result holds, up to their order, the findings of every pair of a
    linter and a module, a pair whose linter returns an error counting
    for none; so the findings of a pair that succeeds are in the result
    whichever other pairs fail.  This holds for both revisions of [Run]
    (for the one whose limit is a flag, when the flag is not zero). *)
Theorem C1_Run_completes_every_pair (m : Manager) :
  Run_returns m (RunInOrder m) /\
  (forall result,
      Run_returns m result ->
      Permutation (data result)
        (flat_map (fun l => flat_map (findings l) (Modules m)) (Linters m)) /\
      forall l md errs f,
        In l (Linters m) -> In md (Modules m) ->
        Run l md = (errs, None) -> In f (data errs) -> In f (data result)) /\
  (forall LintersLimit,
      LintersLimit <> 0%Z ->
      manager_rev.Run_returns LintersLimit m (manager_rev.RunInOrder m)) /\
  (forall LintersLimit result,
      manager_rev.Run_returns LintersLimit m result ->
      Permutation (data result)
        (flat_map (fun md => flat_map (fun l => findings l md) (Linters m)) (Modules m)) /\
      forall l md errs f,
        In l (Linters m) -> In md (Modules m) ->
        Run l md = (errs, None) -> In f (data errs) -> In f (data result)).
Proof.
  split; [apply RunLoop_inOrder|]. split; [|split].
  - intros result Hrun. apply RunLoop_data in Hrun. cbn [data empty app] in Hrun.
    split; [exact Hrun|].
    intros l md errs f Hl Hmd Herrs Hf.
    apply (Permutation_in _ (Permutation_sym Hrun)).
    apply in_flat_map. exists l. split; [exact Hl|].
    apply in_flat_map. exists md. split; [exact Hmd|].
    exact (findings_in l md errs f Herrs Hf).
  - intros limit Hlimit. now apply rev_RunLoop_inOrder.
  - intros limit result Hrun. apply rev_RunLoop_data in Hrun. cbn [data empty app] in Hrun.
    split; [exact Hrun|].
    intros l md errs f Hl Hmd Herrs Hf.
    apply (Permutation_in _ (Permutation_sym Hrun)).
    apply in_flat_map. exists md. split; [exact Hmd|].
    apply in_flat_map. exists l. split; [exact Hl|].
    exact (findings_in l md errs f Herrs Hf).
Qed.

End Run_claims.

Section Run_examples.
Import errors manager.

(** The copyright linter fails on [root/modB]; its finding on
    [root/modA] and both findings of the probes linter are returned. *)
Example RunInOrder_exampleManager :
  data (RunInOrder exampleManager) =
  [finding "copyright" "root/modA" "violation";
   finding "probes" "root/modA" "violation";
   finding "probes" "root/modB" "violation"].
Proof. reflexivity. Qed.

Lemma C1_witness_one_failing_pair :
  snd (Run (failingOn "root/modB" "copyright") "root/modB") <> None /\
  In (finding "probes" "root/modB" "violation") (data (RunInOrder exampleManager)) /\
  In (finding "copyright" "root/modA" "violation")
     (data (manager_rev.RunInOrder exampleManager)).
Proof.
  split; [discriminate|]. split.
  - refine (proj2 (proj1 (proj2 (C1_Run_completes_every_pair exampleManager))
                     (RunInOrder exampleManager)
                     (proj1 (C1_Run_completes_every_pair exampleManager)))
              (failingOn "nowhere" "probes") "root/modB"
              {| data := [finding "probes" "root/modB" "violation"] |}
              _ _ _ eq_refl _).
    + right. left. reflexivity.
    + right. left. reflexivity.
    + left. reflexivity.
  - assert (Hlimit : (1 <> 0)%Z) by lia.
    refine (proj2 (proj2 (proj2 (proj2 (C1_Run_completes_every_pair exampleManager)))
                     1%Z (manager_rev.RunInOrder exampleManager)
                     (proj1 (proj2 (proj2 (C1_Run_completes_every_pair exampleManager)))
                        1%Z Hlimit))
              (failingOn "root/modB" "copyright") "root/modA"
              {| data := [finding "copyright" "root/modA" "violation"] |}
              _ _ _ eq_refl _).
    + left. reflexivity.
    + left. reflexivity.
    + left. reflexivity.
Defined.

End Run_examples.

(** ** The render cache: [RunRender] *)

Section render_facts.
Context `{RenderPkg}.

Import probes rendering.

Lemma Load_true (c : gset N) (hash : N) : Load c hash = true <-> hash ∈ c.
Proof. unfold Load. apply bool_decide_eq_true. Qed.

Lemma Load_false (c : gset N) (hash : N) : Load c hash = false <-> hash ∉ c.
Proof. unfold Load. apply bool_decide_eq_false. Qed.

Lemma Load_Store (c : gset N) (hash : N) : Load (Store c hash) hash = true.
Proof. apply Load_true. unfold Store. set_solver. Qed.

(** A call that gets to the cache with a hash that is absent marks it,
    whatever it returns. *)
Lemma RunRender_marks (m : module_Module) (values : Values)
    (objectStore : UnstructuredObjectStore) (cache : gset N) (hash : N) :
  presents m values = Some hash ->
  Load cache hash = false ->
  snd (RunRender m values objectStore cache) = Store cache hash.
Proof.
  unfold presents, RunRender. intros Hp Hl.
  destruct (RenderChartFromRawValues _ _ _) as [files [err|]]; [discriminate|].
  destruct (Hash files) as [hash' [err|]]; [discriminate|].
  injection Hp as ->. rewrite Hl.
  destruct (rangeFiles files objectStore) as [lintError objectStore']. reflexivity.
Qed.

(** A call whose hash is present returns [nil] at once. *)
Lemma RunRender_skips (m : module_Module) (values : Values)
    (objectStore : UnstructuredObjectStore) (cache : gset N) (hash : N) :
  presents m values = Some hash ->
  Load cache hash = true ->
  RunRender m values objectStore cache = (None, objectStore, cache).
Proof.
  unfold presents, RunRender. intros Hp Hl.
  destruct (RenderChartFromRawValues _ _ _) as [files [err|]]; [discriminate|].
  destruct (Hash files) as [hash' [err|]]; [discriminate|].
  injection Hp as ->. now rewrite Hl.
Qed.

(** No call takes a hash out of the cache. *)
Lemma RunRender_keeps (m : module_Module) (values : Values)
    (objectStore : UnstructuredObjectStore) (cache : gset N) :
  cache ⊆ snd (RunRender m values objectStore cache).
Proof.
  unfold RunRender.
  destruct (RenderChartFromRawValues _ _ _) as [files [err|]]; [reflexivity|].
  destruct (Hash files) as [hash [err|]]; [reflexivity|].
  destruct (Load cache hash); [reflexivity|].
  destruct (rangeFiles files objectStore) as [lintError objectStore'].
  cbn [snd]. unfold Store. set_solver.
Qed.

Lemma cacheAfter_keeps (calls : list (module_Module * Values * UnstructuredObjectStore))
    (cache : gset N) :
  cache ⊆ cacheAfter calls cache.
Proof.
  revert cache. induction calls as [|call calls IH]; intros cache; [reflexivity|].
  unfold cacheAfter. cbn [fold_left]. etransitivity; [|apply IH].
  apply RunRender_keeps.
Qed.

(** C10: a call of [RunRender] that has computed the hash of its output
    leaves that hash in the cache whatever error it returns, also when the
    documents fail to parse or to be stored; after any further calls, a
    call whose output has the same hash returns [nil], stores nothing and
    leaves the cache as it is. *)
Theorem C10_hash_is_marked_whatever_RunRender_returns :
  (forall m values objectStore cache hash,
      presents m values = Some hash ->
      Load (snd (RunRender m values objectStore cache)) hash = true) /\
  (forall m values objectStore cache hash,
      presents m values = Some hash ->
      Load cache hash = false ->
      snd (RunRender m values objectStore cache) = Store cache hash) /\
  (forall m values objectStore cache hash calls m' values' objectStore',
      presents m values = Some hash ->
      presents m' values' = Some hash ->
      let cache' := cacheAfter calls (snd (RunRender m values objectStore cache)) in
      RunRender m' values' objectStore' cache' = (None, objectStore', cache')).
Proof.
  assert (Hmark : forall m values objectStore cache hash,
             presents m values = Some hash ->
             Load (snd (RunRender m values objectStore cache)) hash = true).
  { intros m values objectStore cache hash Hp.
    destruct (Load cache hash) eqn:Hl.
    - now rewrite (RunRender_skips m values objectStore cache hash Hp Hl).
    - rewrite (RunRender_marks m values objectStore cache hash Hp Hl). apply Load_Store. }
  split; [exact Hmark|]. split; [exact RunRender_marks|].
  intros m values objectStore cache hash calls m' values' objectStore' Hp Hp' cache'.
  apply (RunRender_skips m' values' objectStore' cache' hash Hp').
  apply Load_true. apply (cacheAfter_keeps calls). apply Load_true. now apply Hmark.
Qed.

(** What a call does to the cache is a run of the caller: a load, and a
    store when the hash was absent. *)
Lemma RunRender_is_a_caller (m : module_Module) (values : Values)
    (objectStore : UnstructuredObjectStore) (cache : gset N) (hash : N) :
  presents m values = Some hash ->
  rtc callerStep (cache, atLoad hash)
      (snd (RunRender m values objectStore cache), returned (negb (Load cache hash))).
Proof.
  intros Hp. destruct (Load cache hash) eqn:Hl.
  - rewrite (RunRender_skips m values objectStore cache hash Hp Hl). cbn [snd negb].
    apply rtc_once. now constructor.
  - rewrite (RunRender_marks m values objectStore cache hash Hp Hl). cbn [negb].
    eapply rtc_l; [now apply Load_absent|]. apply rtc_once. constructor.
Qed.

End render_facts.

Section render_examples.
Import probes rendering.

(** The second document of the chart does not parse: the call returns
    the error, with the first document stored and the hash marked; the
    next call for the same chart returns [nil] and stores nothing. *)
Lemma C10_witness_parse_error :
  let first := RunRender (H0 := exampleRender) "root/modA" tt [] ∅ in
  fst (fst first) =
    Some (errorString (manifestErrorMessage "yaml: did not find expected key"
                         (numerateManifestLines ": broken"))) /\
  snd (fst first) = ["kind: A"] /\
  RunRender (H0 := exampleRender) "root/modA" tt [] (snd first) = (None, [], snd first).
Proof.
  split; [reflexivity|]. split; [reflexivity|].
  exact (proj2 (proj2 (C10_hash_is_marked_whatever_RunRender_returns (H0 := exampleRender)))
           "root/modA" tt [] ∅ 28%N [] "root/modA" tt [] eq_refl eq_refl).
Defined.

End render_examples.

(** ** Two callers of [RunRender] at the same time *)

Section race_facts.
Import probes racing.

Lemma inRace_start (c : gset N) (hash : N) :
  Load c hash = false -> inRace hash (c, atLoad hash, atLoad hash).
Proof.
  intros Hl. repeat split; auto; try discriminate.
  - rewrite Hl. discriminate.
  - intros [E | E]; discriminate E.
Qed.

Lemma inRace_step (hash : N) (st st' : gset N * caller * caller) :
  inRace hash st -> raceStep st st' -> inRace hash st'.
Proof.
  intros Hin Hstep.
  destruct Hstep as [c a b c' a' Hstep | c a b c' b' Hstep];
    destruct Hin as (Ha & Hb & Hc & Hab & Hba);
    inversion Hstep as [c0 h Hl | c0 h Hl | c0 h]; subst; clear Hstep;
    [ destruct Ha as [Ha | [Ha | [seen Ha]]]; try discriminate Ha; injection Ha as ->
    | destruct Ha as [Ha | [Ha | [seen Ha]]]; try discriminate Ha; injection Ha as ->
    | destruct Ha as [Ha | [Ha | [seen Ha]]]; try discriminate Ha; injection Ha as ->
    | destruct Hb as [Hb | [Hb | [seen Hb]]]; try discriminate Hb; injection Hb as ->
    | destruct Hb as [Hb | [Hb | [seen Hb]]]; try discriminate Hb; injection Hb as ->
    | destruct Hb as [Hb | [Hb | [seen Hb]]]; try discriminate Hb; injection Hb as -> ];
    try (pose proof (Load_Store c hash) as Hstored);
    try (assert (Hl' : Load c' hash <> true) by (rewrite Hl; discriminate));
    unfold inRace; (split; [eauto|]); (split; [eauto|]);
    intuition (try discriminate; try congruence; eauto).
Qed.

Lemma inRace_rtc (hash : N) (st st' : gset N * caller * caller) :
  inRace hash st -> rtc raceStep st st' -> inRace hash st'.
Proof.
  intros Hin Hrtc. induction Hrtc as [st | st st1 st2 Hstep _ IH]; [exact Hin|].
  apply IH. exact (inRace_step hash st st1 Hin Hstep).
Qed.

(** One caller alone, from a load to its return. *)
Lemma caller_alone (c c' : gset N) (hash : N) (seen : bool) :
  rtc callerStep (c, atLoad hash) (c', returned seen) ->
  seen = negb (Load c hash) /\ c' = (if Load c hash then c else Store c hash).
Proof.
  intros Hrtc. inversion Hrtc as [|x y z Hstep Hrest]; subst.
  inversion Hstep as [c0 h Hl | c0 h Hl | c0 h]; subst; rewrite Hl; cbn [negb].
  - inversion Hrest as [|x y z Hstep' _]; subst; [auto|]. inversion Hstep'.
  - inversion Hrest as [|x y z Hstep' Hrest']; subst.
    inversion Hstep' as [ | | c0 h]; subst.
    inversion Hrest' as [|x y z Hstep'' _]; subst; [auto|]. inversion Hstep''.
Qed.

(** C2, as the code has it: of two callers that present the same hash,
    absent from the cache, at least one proceeds to validation and, when
    both have returned, the hash is present; both proceed in the
    interleaving in which the second load comes before the first store,
    and exactly one does when one caller returns before the other loads. *)
Theorem C2_callers_with_the_same_hash :
  (forall (c c' : gset N) (hash : N) (a b : bool),
      Load c hash = false ->
      rtc raceStep (c, atLoad hash, atLoad hash) (c', returned a, returned b) ->
      (a = true \/ b = true) /\ Load c' hash = true) /\
  (forall (c c1 c2 : gset N) (hash : N) (a b : bool),
      Load c hash = false ->
      rtc callerStep (c, atLoad hash) (c1, returned a) ->
      rtc callerStep (c1, atLoad hash) (c2, returned b) ->
      a = true /\ b = false /\ Load c2 hash = true) /\
  (forall (c : gset N) (hash : N),
      Load c hash = false ->
      rtc raceStep (c, atLoad hash, atLoad hash)
          (Store (Store c hash) hash, returned true, returned true)).
Proof.
  split; [|split].
  - intros c c' hash a b Hl Hrtc.
    pose proof (inRace_rtc hash _ _ (inRace_start c hash Hl) Hrtc)
      as (_ & _ & Hc & Hab & Hba).
    assert (Hone : a = true \/ b = true).
    { destruct a; [now left|]. right. specialize (Hab eq_refl). now injection Hab. }
    split; [exact Hone|]. apply Hc.
    destruct Hone as [-> | ->]; [now left | now right].
  - intros c c1 c2 hash a b Hl H1 H2.
    apply caller_alone in H1 as [-> ->]. rewrite Hl in *. cbn [negb].
    apply caller_alone in H2 as [-> ->]. rewrite Load_Store. cbn [negb].
    repeat split. apply Load_Store.
  - intros c hash Hl.
    eapply rtc_l; [apply race_left, Load_absent, Hl|].
    eapply rtc_l; [apply race_right, Load_absent, Hl|].
    eapply rtc_l; [apply race_left, deferred_Store|].
    apply rtc_once. apply race_right, deferred_Store.
Qed.

(** Two callers with the hash 7 and an empty cache: both find it absent
    and both validate. *)
Lemma C2_counterexample_both_callers_validate :
  Load ∅ 7%N = false /\
  exists c' : gset N,
    rtc raceStep (∅, atLoad 7%N, atLoad 7%N) (c', returned true, returned true).
Proof.
  split; [reflexivity|]. eexists.
  eapply rtc_l; [apply race_left, Load_absent; reflexivity|].
  eapply rtc_l; [apply race_right, Load_absent; reflexivity|].
  eapply rtc_l; [apply race_left, deferred_Store|].
  apply rtc_once. apply race_right, deferred_Store.
Qed.

Lemma C2_witness_one_after_the_other :
  Load ∅ 7%N = false /\
  rtc raceStep (∅, atLoad 7%N, atLoad 7%N)
      (Store (Store ∅ 7%N) 7%N, returned true, returned true) /\
  Load (Store (Store ∅ 7%N) 7%N) 7%N = true.
Proof.
  assert (Hl : Load ∅ 7%N = false) by reflexivity.
  split; [exact Hl|]. split.
  - exact (proj2 (proj2 C2_callers_with_the_same_hash) ∅ 7%N Hl).
  - exact (proj2 (proj1 C2_callers_with_the_same_hash ∅ _ 7%N true true Hl
                    (proj2 (proj2 C2_callers_with_the_same_hash) ∅ 7%N Hl))).
Defined.

End race_facts.

(** * Further properties *)

(** ** Finding sets built by [Add] *)

Section finding_set_facts.
Context `{GoAny} `{Console}.

Import errors notions.

Lemma EqualsTo_sym (a b : LintRuleError) : EqualsTo a b = EqualsTo b a.
Proof.
  unfold EqualsTo.
  now rewrite (String.eqb_sym (ID a)), (String.eqb_sym (Text a)), (String.eqb_sym (ObjectID a)).
Qed.

Lemma distinct_snoc (l : list LintRuleError) (e : LintRuleError) :
  distinct l = true -> IsEmpty e = false -> existsb (EqualsTo e) l = false ->
  distinct (l ++ [e]) = true.
Proof.
  induction l as [|x l IH]; intros Hd He Hn.
  - cbn [app distinct existsb]. now rewrite He.
  - cbn [app distinct] in *. cbn [existsb] in Hn.
    apply orb_false_iff in Hn as [Hex Hn].
    apply andb_true_iff in Hd as [Hd Hl]. apply andb_true_iff in Hd as [Hx Hxl].
    rewrite Hx, (IH Hl He Hn), existsb_app. cbn [existsb].
    apply negb_true_iff in Hxl. rewrite Hxl, (EqualsTo_sym x e), Hex. reflexivity.
Qed.

Lemma Add_distinct (s : LintRuleErrorsList) (f : LintRuleError) :
  distinct (data s) = true -> distinct (data (Add s f)) = true.
Proof.
  intros Hd. unfold Add, ContainsFunc.
  destruct (IsEmpty f) eqn:He; [exact Hd|].
  destruct (existsb (EqualsTo f) (data s)) eqn:Hn; [exact Hd|].
  now apply distinct_snoc.
Qed.

(** X1: [Add] keeps a set free of empty findings and of pairs of equal
    findings, so every set built from the empty one by [Add] alone is
    free of them. *)
Theorem Add_keeps_the_set_distinct :
  (forall (s : LintRuleErrorsList) (f : LintRuleError),
      distinct (data s) = true -> distinct (data (Add s f)) = true) /\
  (forall fs : list LintRuleError,
      distinct (data (fold_left Add fs empty)) = true).
Proof.
  split; [exact Add_distinct|].
  intros fs. assert (Hgen : forall s, distinct (data s) = true ->
                                      distinct (data (fold_left Add fs s)) = true).
  { induction fs as [|f fs IH]; intros s Hs; [exact Hs|].
    cbn [fold_left]. apply IH. now apply Add_distinct. }
  now apply Hgen.
Qed.

Lemma Add_keeps_entries (s : LintRuleErrorsList) (f g : LintRuleError) :
  In g (data s) -> In g (data (Add s f)).
Proof.
  intros Hin. unfold Add. destruct (IsEmpty f); [exact Hin|].
  destruct (ContainsFunc (data s) (EqualsTo f)); [exact Hin|].
  cbn [data]. apply in_or_app. now left.
Qed.

Lemma fold_Add_keeps_entries (fs : list LintRuleError) (s : LintRuleErrorsList)
    (g : LintRuleError) :
  In g (data s) -> In g (data (fold_left Add fs s)).
Proof.
  revert s. induction fs as [|f fs IH]; intros s Hin; [exact Hin|].
  cbn [fold_left]. apply IH. now apply Add_keeps_entries.
Qed.

Lemma fold_Add_sound (fs : list LintRuleError) (s : LintRuleErrorsList)
    (g : LintRuleError) :
  In g (data (fold_left Add fs s)) -> In g (data s) \/ In g fs.
Proof.
  revert s. induction fs as [|f fs IH]; intros s Hin; [now left|].
  cbn [fold_left] in Hin. apply IH in Hin as [Hin | Hin]; [|right; now right].
  unfold Add in Hin. destruct (IsEmpty f); [now left|].
  destruct (ContainsFunc (data s) (EqualsTo f)); [now left|].
  cbn [data] in Hin. apply in_app_or in Hin as [Hin | [<- | []]]; [now left|].
  right. now left.
Qed.

(** X2: when findings are added one after the other to the empty set,
    everything stored is one of them, and of the findings that are equal
    the first one is stored, with its payload. *)
Theorem Add_stores_the_first_of_equal_findings :
  (forall (fs : list LintRuleError) (g : LintRuleError),
      In g (data (fold_left Add fs empty)) -> In g fs) /\
  (forall (before after : list LintRuleError) (f : LintRuleError),
      IsEmpty f = false ->
      existsb (EqualsTo f) before = false ->
      In f (data (fold_left Add (before ++ f :: after) empty))).
Proof.
  split.
  - intros fs g Hin. now apply fold_Add_sound in Hin as [[] | Hin].
  - intros before after f He Hn. rewrite fold_left_app. cbn [fold_left].
    apply fold_Add_keeps_entries.
    assert (Hfresh : existsb (EqualsTo f) (data (fold_left Add before empty)) = false).
    { apply not_true_iff_false. intros Hex.
      apply existsb_exists in Hex as (g & Hin & Hg).
      apply fold_Add_sound in Hin as [[] | Hin].
      apply not_true_iff_false in Hn. apply Hn. apply existsb_exists. eauto. }
    rewrite (Add_fresh _ f He Hfresh). cbn [data]. apply in_or_app. right. now left.
Qed.

Lemma writeEntry_contains_value (err : LintRuleError) (v : any) :
  Value err = Some v -> strings.Contains (writeEntry err) (fmt_s v) = true.
Proof.
  intros Hv. rewrite writeEntry_eq, Hv.
  apply Contains_app_skip, Contains_app_keep.
  do 4 apply Contains_app_skip. apply Contains_app_keep, Contains_self.
Qed.

Lemma writeEntries_contains_value (es : list LintRuleError) (err : LintRuleError) (v : any) :
  In err es -> Value err = Some v ->
  strings.Contains (writeEntries es) (fmt_s v) = true.
Proof.
  intros Hin Hv. induction es as [|e es IH]; [contradiction|].
  cbn [writeEntries]. destruct Hin as [-> | Hin].
  - apply Contains_app_keep. now apply writeEntry_contains_value.
  - apply Contains_app_skip. now apply IH.
Qed.

(** X3: the report of a set holds, for every entry whose message has no
    percent sign, the identifier, the message and the object of the
    entry, and what [%s] prints for its payload when it has one. *)
Theorem ConvertToError_reports_every_entry
    (l : LintRuleErrorsList) (err : LintRuleError) :
  In err (data l) ->
  strings.Contains (Text err) "%" = false ->
  exists report,
    ConvertToError l = Some report /\
    strings.Contains report (ID err) = true /\
    strings.Contains report (Text err) = true /\
    strings.Contains report (ObjectID err) = true /\
    (forall v, Value err = Some v -> strings.Contains report (fmt_s v) = true).
Proof.
  intros Hin Hp.
  destruct (ConvertToError_contains l err Hin Hp) as (report & Hr & Hi & Ht & Ho).
  exists report. repeat split; try assumption.
  intros v Hv. rewrite (ConvertToError_some l) in Hr by (intros E; now rewrite E in Hin).
  injection Hr as <-. now apply writeEntries_contains_value with (err := err).
Qed.

End finding_set_facts.

Section finding_set_examples.
Import errors notions.

Lemma Add_keeps_the_set_distinct_witness :
  let s := {| data := [finding "probes" "modA" "liveness probe is missing"] |} in
  let f := finding "probes" "modB" "liveness probe is missing" in
  distinct (data s) = true /\ distinct (data (Add s f)) = true.
Proof.
  intros s f. split; [reflexivity|].
  exact (proj1 Add_keeps_the_set_distinct s f eq_refl).
Defined.

Lemma Add_stores_the_first_witness :
  let f := {| Text := "image is not distroless"; ID := "images";
              ObjectID := "modA"; Value := Some "first" |} in
  let g := {| Text := "image is not distroless"; ID := "images";
              ObjectID := "modA"; Value := Some "second" |} in
  let before := [finding "probes" "modA" "liveness probe is missing"] in
  existsb (EqualsTo f) before = false /\
  In f (data (fold_left Add (before ++ f :: [g]) empty)).
Proof.
  intros f g before. split; [reflexivity|].
  exact (proj2 Add_stores_the_first_of_equal_findings before [g] f eq_refl eq_refl).
Defined.

Lemma ConvertToError_reports_every_entry_witness :
  let err := {| Text := "image is not distroless"; ID := "images";
                ObjectID := "modA"; Value := Some "alpine:3.12" |} in
  exists report,
    ConvertToError {| data := [finding "probes" "modB" "no probe"; err] |} = Some report /\
    strings.Contains report "image is not distroless" = true /\
    strings.Contains report "alpine:3.12" = true.
Proof.
  intros err.
  destruct (ConvertToError_reports_every_entry
              {| data := [finding "probes" "modB" "no probe"; err] |} err
              (or_intror (or_introl eq_refl)) eq_refl)
    as (report & Hr & _ & Ht & _ & Hv).
  exists report. split; [exact Hr|]. split; [exact Ht|]. exact (Hv "alpine:3.12" eq_refl).
Defined.

End finding_set_examples.

(** ** The registry, without [DisableAll] *)

Section registry_more.
Context `{GoAny} `{Console} `{ModulePkg}.

Import manager.

(** With [m.lintersMap] as [resultLintersSet], the loop over the enable
    list writes back what it reads. *)
Lemma enable_loop_alias (names : list string) (h : mapHeap) :
  fold_left (enableStep lintersMapRef) names h = h.
Proof.
  revert h. induction names as [|name names IH]; intros h; [reflexivity|].
  cbn [fold_left]. rewrite <- (IH h) at 2. f_equal.
  unfold enableStep. destruct (fst h !! strings.ToLower name) as [linter|] eqn:E;
    [|reflexivity].
  destruct h as [lm set]. cbn [update fst snd] in *. now rewrite insert_id.
Qed.

Lemma disable_loop_alias (lm set : gmap string Linter) (names : list string) :
  let h := fold_left (disableStep lintersMapRef) names (lm, set) in
  snd h = set /\
  forall k l, fst h !! k = Some l <-> (lm !! k = Some l /\ ~ In k names).
Proof.
  induction names as [|name names IH] using rev_ind; cbn zeta.
  - split; [reflexivity|]. intros k l. cbn [fold_left fst In]. tauto.
  - rewrite fold_left_app. cbn [fold_left].
    destruct (fold_left (disableStep lintersMapRef) names (lm, set)) as [lm' set'] eqn:E.
    cbn zeta in IH. cbn [fst snd] in IH. destruct IH as [-> IH].
    unfold disableStep. cbn [fst].
    destruct (lm' !! name) as [linter|] eqn:Hknown; cbn [update fst snd].
    + split; [reflexivity|]. intros k l. rewrite in_app_iff. cbn [In].
      destruct (decide (name = k)) as [<- | Hne].
      * rewrite lookup_delete_eq. split; [discriminate | tauto].
      * rewrite lookup_delete_ne by assumption. rewrite IH. tauto.
    + split; [reflexivity|]. intros k l. rewrite in_app_iff. cbn [In].
      rewrite IH. split; [|tauto]. intros [Hl Hnot]. split; [exact Hl|].
      intros [Hin | [<- | []]]; [tauto|].
      assert (Hsome : lm' !! name = Some l) by (apply IH; tauto). congruence.
Qed.

Lemma getEnabledLinters_alias_lookup (m : Manager) (k : string) (l : Linter) :
  DisableAll (cfg m) = false ->
  fst (getEnabledLinters m) !! k = Some l <->
  lintersMap m !! k = Some l /\ ~ In k (Disable (cfg m)).
Proof.
  intros Hall. unfold getEnabledLinters. rewrite Hall.
  assert (Href : (if EnableAll (cfg m) then lintersMapRef else lintersMapRef) = lintersMapRef)
    by now destruct (EnableAll (cfg m)).
  rewrite Href, enable_loop_alias.
  destruct (disable_loop_alias (lintersMap m) ∅ (Disable (cfg m))) as [_ Hres].
  cbn zeta in Hres. cbn [fst snd deref lintersMap]. apply Hres.
Qed.

(** X4: without [DisableAll] the enabled set is the catalogue less the
    names of the disable list, looked up as they are written; the enable
    list and [EnableAll] change nothing, and the set is [m.lintersMap]
    itself, which loses the disabled linters too. *)
Theorem getEnabledLinters_without_DisableAll (m : Manager) :
  DisableAll (cfg m) = false ->
  (forall k l,
      fst (getEnabledLinters m) !! k = Some l <->
      lintersMap m !! k = Some l /\ ~ In k (Disable (cfg m))) /\
  lintersMap (snd (getEnabledLinters m)) = fst (getEnabledLinters m).
Proof.
  intros Hall. split.
  - intros k l. now apply getEnabledLinters_alias_lookup.
  - unfold getEnabledLinters. rewrite Hall.
    now destruct (EnableAll (cfg m)).
Qed.

Lemma fill_fold (linters : list Linter) (mp : gmap string Linter) (k : string) (l : Linter) :
  fold_left (fun mp linter => <[strings.ToLower (Name linter) := linter]> mp) linters mp
    !! k = Some l ->
  (In l linters /\ k = strings.ToLower (Name l)) \/ mp !! k = Some l.
Proof.
  revert mp. induction linters as [|x linters IH]; intros mp Hl; [now right|].
  cbn [fold_left] in Hl. apply IH in Hl as [[Hin Hk] | Hl].
  - left. split; [now right | exact Hk].
  - destruct (decide (strings.ToLower (Name x) = k)) as [<- | Hne].
    + rewrite lookup_insert_eq in Hl. injection Hl as <-. left. split; [now left | reflexivity].
    + rewrite lookup_insert_ne in Hl by assumption. now right.
Qed.

Lemma fill_fold_other (linters : list Linter) (mp : gmap string Linter) (k : string) :
  (forall l', In l' linters -> strings.ToLower (Name l') <> k) ->
  fold_left (fun mp linter => <[strings.ToLower (Name linter) := linter]> mp) linters mp
    !! k = mp !! k.
Proof.
  revert mp. induction linters as [|x linters IH]; intros mp Hno; [reflexivity|].
  cbn [fold_left]. rewrite IH by (intros l' Hin; apply Hno; now right).
  apply lookup_insert_ne. apply Hno. now left.
Qed.

Lemma fillLintersMap_key (linters : list Linter) (k : string) (l : Linter) :
  fillLintersMap linters !! k = Some l ->
  In l linters /\ k = strings.ToLower (Name l).
Proof.
  intros Hl. unfold fillLintersMap in Hl.
  apply fill_fold in Hl as [Hl | Hl]; [exact Hl|]. rewrite lookup_empty in Hl. discriminate.
Qed.

(** X5: every key of the catalogue is the lower case of the name of the
    linter stored under it, which is one of the linters given; of the
    linters whose names agree up to case the last one is stored. *)
Theorem fillLintersMap_keeps_the_last_of_a_name :
  (forall (linters : list Linter) (k : string) (l : Linter),
      fillLintersMap linters !! k = Some l ->
      In l linters /\ k = strings.ToLower (Name l)) /\
  (forall (before after : list Linter) (l : Linter),
      (forall l', In l' after -> strings.ToLower (Name l') <> strings.ToLower (Name l)) ->
      fillLintersMap (before ++ l :: after) !! strings.ToLower (Name l) = Some l).
Proof.
  split; [exact fillLintersMap_key|].
  intros before after l Hno. unfold fillLintersMap.
  rewrite fold_left_app. cbn [fold_left].
  rewrite fill_fold_other by exact Hno. apply lookup_insert_eq.
Qed.

Lemma lower_idempotent (c : ascii) : strings.lower (strings.lower c) = strings.lower c.
Proof. destruct c as [[] [] [] [] [] [] [] []]; reflexivity. Qed.

Lemma ToLower_idempotent (s : string) :
  strings.ToLower (strings.ToLower s) = strings.ToLower s.
Proof.
  induction s as [|c s IH]; [reflexivity|].
  cbn [strings.ToLower]. now rewrite lower_idempotent, IH.
Qed.

(** X6: a name of the disable list that is not in lower case disables
    nothing, the catalogue being the one [NewManager] fills: the enabled
    set is the same with and without it. *)
Theorem disable_ignores_a_name_with_capitals
    (catalogue : list Linter) (disableAll enableAll : bool)
    (enable before after : list string) (name : string) :
  strings.ToLower name <> name ->
  let configured disable :=
    {| cfg := {| DisableAll := disableAll; EnableAll := enableAll;
                 Enable := enable; Disable := disable |};
       Linters := catalogue; Modules := [];
       lintersMap := fillLintersMap catalogue |} in
  fst (getEnabledLinters (configured (before ++ name :: after))) =
  fst (getEnabledLinters (configured (before ++ after))).
Proof.
  intros Hcap configured. apply map_eq. intros k. apply option_eq. intros l.
  assert (Hkey : fillLintersMap catalogue !! k = Some l -> k <> name).
  { intros Hl Hk. apply fillLintersMap_key in Hl as [_ Hl].
    apply Hcap. rewrite <- Hk, Hl. apply ToLower_idempotent. }
  assert (Hin : fillLintersMap catalogue !! k = Some l ->
                (In k (before ++ name :: after) <-> In k (before ++ after))).
  { intros Hl. specialize (Hkey Hl). rewrite !in_app_iff. cbn [In].
    split; [intros [?|[?|?]]|intros [?|?]]; try tauto. congruence. }
  destruct disableAll.
  - rewrite !getEnabledLinters_disableAll by reflexivity.
    subst configured. cbn [cfg lintersMap Disable Enable]. tauto.
  - rewrite !getEnabledLinters_alias_lookup by reflexivity.
    subst configured. cbn [cfg lintersMap Disable]. tauto.
Qed.

End registry_more.

Section registry_more_examples.
Import manager.

Lemma getEnabledLinters_without_DisableAll_witness :
  let m := configured {| DisableAll := false; EnableAll := false;
                         Enable := ["helm"]; Disable := ["probes"; "openapi"] |} in
  map fst (map_to_list (fst (getEnabledLinters m))) = ["copyright"; "no-cyrillic"] /\
  lintersMap (snd (getEnabledLinters m)) = fst (getEnabledLinters m).
Proof.
  intros m. split; [vm_compute; reflexivity|].
  exact (proj2 (getEnabledLinters_without_DisableAll m eq_refl)).
Defined.

Lemma fillLintersMap_keeps_the_last_witness :
  let first := exampleLinter "Probes" (fun _ => (errors.empty, None)) in
  let last := exampleLinter "probes" (fun _ => (errors.empty, Some (errorString "later"))) in
  fillLintersMap ([first] ++ last :: []) !! "probes" = Some last.
Proof.
  intros first last.
  exact (proj2 fillLintersMap_keeps_the_last_of_a_name [first] [] last
           (fun l' (Hin : In l' []) => match Hin with end)).
Defined.

Lemma disable_ignores_a_name_with_capitals_witness :
  let linters := [exampleLinter "openapi" (fun _ => (errors.empty, None));
                  exampleLinter "probes" (fun _ => (errors.empty, None))] in
  strings.ToLower "Probes" <> "Probes" /\
  fst (getEnabledLinters
         {| cfg := {| DisableAll := false; EnableAll := false; Enable := [];
                      Disable := ["openapi"] ++ "Probes" :: [] |};
            Linters := linters; Modules := []; lintersMap := fillLintersMap linters |}) =
  fst (getEnabledLinters
         {| cfg := {| DisableAll := false; EnableAll := false; Enable := [];
                      Disable := ["openapi"] ++ [] |};
            Linters := linters; Modules := []; lintersMap := fillLintersMap linters |}).
Proof.
  intros linters.
  assert (Hcap : strings.ToLower "Probes" <> "Probes") by discriminate.
  split; [exact Hcap|].
  exact (disable_ignores_a_name_with_capitals linters false false []
           ["openapi"] [] "Probes" Hcap).
Defined.

End registry_more_examples.

(** ** Module discovery: errors, and the revision that walks the tree *)

Section discovery_more.
Context `{GoAny} `{Console} `{ModulePkg}.

Import filepath discovery notions.

(** The loop over accessible entries goes on to the entries after them. *)
Lemma walkNames_first_level_app (dir : string) (before rest : list (string * node)) :
  forallb accessible before = true ->
  forall acc,
    walkNames (manager.visit dir) dir (before ++ rest) acc =
    walkNames (manager.visit dir) dir rest
      (acc ++ map (fun e => Join dir (fst e))
                  (List.filter (isModuleDir manager.ChartConfigFilename) before)).
Proof.
  induction before as [|[name child] before IH]; intros Hok acc.
  - simpl. now rewrite app_nil_r.
  - cbn [forallb] in Hok. apply andb_true_iff in Hok as [Hchild Hrest].
    cbn [app walkNames]. destruct child as [ | sub | msg | msg ]; try discriminate Hchild.
    + cbn [walk]. unfold manager.visit at 1. cbn [IsDir negb orb].
      rewrite (IH Hrest). reflexivity.
    + rewrite walk_Dir, visit_below_Dir. cbn [IsDir negb orb is_SkipDir].
      rewrite (IH Hrest). cbn [List.filter].
      assert (Hm : isModuleDir manager.ChartConfigFilename (name, Dir sub) =
                   statOK (Dir sub) manager.ChartConfigFilename) by reflexivity.
      rewrite Hm.
      destruct (statOK (Dir sub) manager.ChartConfigFilename); cbn [map fst];
        [now rewrite <- app_assoc | reflexivity].
Qed.

(** X7: what cannot be examined ends the discovery: the search root, or
    the first entry of it, on which [Lstat] fails or which is a directory
    that cannot be read, is named in the error returned, and no module is
    returned, not even those found before it. *)
Theorem getModulePaths_fails_on_what_it_cannot_read :
  (forall dir msg,
      manager.getModulePaths dir (Inaccessible msg) =
      ([], Some (wrapError ("file access '" +:+ dir +:+ "': ") (PathError "lstat" dir msg)))) /\
  (forall dir msg,
      manager.getModulePaths dir (DirUnreadable msg) =
      ([], Some (wrapError ("file access '" +:+ dir +:+ "': ") (PathError "open" dir msg)))) /\
  (forall dir before name msg after,
      forallb accessible before = true ->
      manager.getModulePaths dir (Dir (before ++ (name, Inaccessible msg) :: after)) =
      ([], Some (wrapError ("file access '" +:+ Join dir name +:+ "': ")
                   (PathError "lstat" (Join dir name) msg)))) /\
  (forall dir before name msg after,
      forallb accessible before = true ->
      manager.getModulePaths dir (Dir (before ++ (name, DirUnreadable msg) :: after)) =
      ([], Some (wrapError ("file access '" +:+ Join dir name +:+ "': ")
                   (PathError "open" (Join dir name) msg)))).
Proof.
  split; [reflexivity|]. split; [reflexivity|]. split.
  - intros dir before name msg after Hok.
    rewrite getModulePaths_Dir, (walkNames_first_level_app dir before _ Hok).
    cbn [walkNames]. unfold manager.visit at 1. cbn [is_SkipDir]. reflexivity.
  - intros dir before name msg after Hok.
    rewrite getModulePaths_Dir, (walkNames_first_level_app dir before _ Hok).
    cbn [walkNames walk]. unfold manager.visit at 1. cbn [IsDir negb orb is_SkipDir].
    reflexivity.
Qed.

Lemma walkNames_sound (dir : string) (entries : list (string * node)) (p : string) :
  forall acc,
    In p (fst (walkNames (manager.visit dir) dir entries acc)) ->
    In p acc \/
    exists name sub,
      In (name, Dir sub) entries /\
      statOK (Dir sub) manager.ChartConfigFilename = true /\ p = Join dir name.
Proof.
  induction entries as [|[name child] rest IH]; intros acc Hin; [now left|].
  cbn [walkNames] in Hin. destruct child as [ | sub | msg | msg ].
  - cbn [walk] in Hin. unfold manager.visit at 1 in Hin. cbn [IsDir negb orb] in Hin.
    apply IH in Hin as [Hin | (n & s & Hn & Hs & Hp)]; [now left|].
    right. exists n, s. split; [now right | auto].
  - rewrite walk_Dir, visit_below_Dir in Hin. cbn [IsDir negb orb is_SkipDir] in Hin.
    apply IH in Hin as [Hin | (n & s & Hn & Hs & Hp)].
    + destruct (statOK (Dir sub) manager.ChartConfigFilename) eqn:Hs; [|now left].
      apply in_app_or in Hin as [Hin | [<- | []]]; [now left|].
      right. exists name, sub. split; [now left | auto].
    + right. exists n, s. split; [now right | auto].
  - cbn [walk] in Hin. unfold manager.visit at 1 in Hin.
    cbn [IsDir negb orb is_SkipDir fst] in Hin. now left.
  - unfold manager.visit at 1 in Hin. cbn [is_SkipDir fst] in Hin. now left.
Qed.

Lemma getModulePaths_in_walk (dir : string) (fs : node) (p : string) :
  In p (fst (manager.getModulePaths dir fs)) ->
  exists entries,
    fs = Dir entries /\ In p (fst (walkNames (manager.visit dir) dir entries [])).
Proof.
  destruct fs as [ | entries | msg | msg ]; try (intros []).
  rewrite getModulePaths_Dir. intros Hin. exists entries. split; [reflexivity|].
  destruct (walkNames (manager.visit dir) dir entries []) as [chartDirs [err|]];
    [destruct (is_SkipDir err)|]; cbn [fst In] in *; tauto.
Qed.

(** X8: whatever the tree and whatever fails, every path returned is
    that of an entry of the search root that is a directory holding the
    marker. *)
Theorem getModulePaths_returns_marked_entries_only
    (dir : string) (fs : node) (p : string) :
  In p (fst (manager.getModulePaths dir fs)) ->
  exists entries name sub,
    fs = Dir entries /\ In (name, Dir sub) entries /\
    statOK (Dir sub) manager.ChartConfigFilename = true /\ p = Join dir name.
Proof.
  intros Hin. apply getModulePaths_in_walk in Hin as (entries & -> & Hw).
  apply walkNames_sound in Hw as [[] | (name & sub & Hn & Hs & Hp)].
  exists entries, name, sub. auto.
Qed.

Lemma rev_walk_readable (info : node) :
  forall path acc,
    readable info = true ->
    walk manager_rev.visit path info acc =
    (acc ++ map fst (List.filter (fun d => isModuleRev (snd d)) (directories path info)), None).
Proof.
  induction info as [ | msg | msg | entries IH ] using node_tree_ind;
    intros path acc Hr; try discriminate Hr.
  - cbn [walk directories List.filter map]. unfold manager_rev.visit. cbn [IsDir negb].
    now rewrite app_nil_r.
  - rewrite walk_Dir. unfold manager_rev.visit at 1. cbn [IsDir negb].
    cbn [directories List.filter snd map fst].
    change (manager.isExistsOnFilesystem (Dir entries) manager_rev.ModuleYamlFilename ||
            manager.isExistsOnFilesystem (Dir entries) manager_rev.ChartConfigFilename &&
            (manager.isExistsOnFilesystem (Dir entries) manager_rev.HooksDir ||
             manager.isExistsOnFilesystem (Dir entries) manager_rev.ImagesDir))
      with (isModuleRev (Dir entries)).
    cbn [readable] in Hr.
    assert (Hloop : forall acc1,
               walkNames manager_rev.visit path entries acc1 =
               (acc1 ++ map fst
                  (List.filter (fun d => isModuleRev (snd d))
                     (flat_map (fun e => match e with
                                         | (name, child) => directories (Join path name) child
                                         end) entries)), None)).
    { clear acc. induction IH as [|[name child] rest Hchild _ IHrest]; intros acc1.
      - simpl. now rewrite app_nil_r.
      - cbn [forallb] in Hr. apply andb_true_iff in Hr as [Hc Hrest].
        cbn [snd] in Hchild. cbn [walkNames flat_map].
        rewrite List.filter_app, map_app, app_assoc.
        destruct child as [ | sub | msg | msg ]; try discriminate Hc;
          rewrite (Hchild (Join path name) acc1 Hc); now rewrite (IHrest Hrest). }
    rewrite Hloop.
    destruct (isModuleRev (Dir entries)); cbn [map fst]; [now rewrite <- app_assoc | reflexivity].
Qed.

(** X9: in the revision of part_000, on a tree in which nothing fails,
    discovery returns every directory that passes its test, the search
    root among them and at whatever depth, a parent before what it
    holds. *)
Theorem rev_getModulePaths_walks_every_directory (dir : string) (fs : node) :
  readable fs = true ->
  manager_rev.getModulePaths dir fs =
  (map fst (List.filter (fun d => isModuleRev (snd d)) (directories dir fs)), None).
Proof.
  intros Hr. unfold manager_rev.getModulePaths, Walk.
  assert (Hw : match fs with
               | Inaccessible msg =>
                   manager_rev.visit dir fs (Some (PathError "lstat" dir msg)) []
               | _ => walk manager_rev.visit dir fs []
               end = walk manager_rev.visit dir fs []).
  { destruct fs; reflexivity. }
  rewrite Hw, (rev_walk_readable fs dir [] Hr). reflexivity.
Qed.

End discovery_more.

Section discovery_more_examples.
Import filepath discovery notions.

Lemma getModulePaths_fails_witness :
  let before := [("modA", Dir [("Chart.yaml", File)])] in
  forallb accessible before = true /\
  manager.getModulePaths "root"
    (Dir (before ++ ("vault", DirUnreadable "permission denied") :: [("modB", File)])) =
  ([], Some (wrapError "file access 'root/vault': "
               (PathError "open" "root/vault" "permission denied"))).
Proof.
  intros before. split; [reflexivity|].
  exact (proj2 (proj2 (proj2 getModulePaths_fails_on_what_it_cannot_read))
           "root" before "vault" "permission denied" [("modB", File)] eq_refl).
Defined.

Lemma getModulePaths_returns_marked_entries_witness :
  let fs := Dir [("docs", Dir []); ("modA", Dir [("Chart.yaml", File)])] in
  In "root/modA" (fst (manager.getModulePaths "root" fs)) /\
  exists entries name sub,
    fs = Dir entries /\ In (name, Dir sub) entries /\
    statOK (Dir sub) manager.ChartConfigFilename = true /\ "root/modA" = Join "root" name.
Proof.
  intros fs.
  assert (Hin : In "root/modA" (fst (manager.getModulePaths "root" fs)))
    by (left; reflexivity).
  split; [exact Hin|].
  exact (getModulePaths_returns_marked_entries_only "root" fs "root/modA" Hin).
Defined.

Lemma rev_getModulePaths_walks_witness :
  let fs := Dir [("module.yaml", File);
                 ("x", Dir [("modB", Dir [("Chart.yaml", File); ("hooks", Dir [])])])] in
  readable fs = true /\
  manager_rev.getModulePaths "root" fs = (["root"; "root/x/modB"], None).
Proof.
  intros fs. split; [reflexivity|].
  exact (rev_getModulePaths_walks_every_directory "root" fs eq_refl).
Defined.

End discovery_more_examples.

(** ** [NewManager] *)

Section newmanager_facts.
Context `{GoAny} `{Console} `{ModulePkg}.
Variable Expand : string -> string * option error.
Variable lies : string -> filepath.node.

Import filepath manager newmanager.

Lemma collect_fold (dirs : list string) (paths : list string) (p : string) :
  In p (fold_left (collect Expand lies) dirs paths) ->
  In p paths \/
  exists d dir, In d dirs /\ Expand d = (dir, None) /\
                In p (fst (getModulePaths dir (lies dir))).
Proof.
  revert paths. induction dirs as [|d dirs IH]; intros paths Hin; [now left|].
  cbn [fold_left] in Hin. apply IH in Hin as [Hin | (d' & dir & Hd & He & Hp)].
  - unfold collect in Hin. destruct (Expand d) as [dir [err|]] eqn:He; [now left|].
    apply in_app_or in Hin as [Hin | Hin]; [now left|].
    right. exists d, dir. split; [now left | auto].
  - right. exists d', dir. split; [now right | auto].
Qed.

(** X10: every linter of the manager [NewManager] returns is one of the
    linters made by the constructors, and every module of it is made
    from an entry, a directory holding the marker, of a search root that
    could be expanded. *)
Theorem NewManager_takes_linters_and_modules_from_what_it_is_given
    (catalogue : list Linter) (dirs : list string) (config : LintersConfig) (m : Manager) :
  NewManager_returns Expand lies catalogue dirs config m ->
  (forall l, In l (Linters m) -> In l catalogue) /\
  (forall md, In md (Modules m) ->
     exists d dir entries name sub,
       In d dirs /\ Expand d = (dir, None) /\ lies dir = Dir entries /\
       In (name, Dir sub) entries /\
       statOK (Dir sub) ChartConfigFilename = true /\
       md = NewModule (Join dir name)).
Proof.
  intros (_ & Hlinters & _ & Hmodules). split.
  - intros l Hin. unfold isLinterList in Hlinters.
    apply (Permutation_in _ Hlinters) in Hin.
    apply in_map_iff in Hin as ([k l'] & Hl & Hin). cbn [snd] in Hl. subst l'.
    apply list_elem_of_In, elem_of_map_to_list in Hin.
    set (m0 := {| cfg := config; Linters := catalogue; Modules := [];
                  lintersMap := fillLintersMap catalogue |}) in *.
    assert (Hcat : lintersMap m0 !! k = Some l).
    { destruct (DisableAll (cfg m0)) eqn:Hall.
      - now apply (getEnabledLinters_disableAll m0 k l Hall) in Hin as [Hl _].
      - now apply (getEnabledLinters_alias_lookup m0 k l Hall) in Hin as [Hl _]. }
    now apply fillLintersMap_key in Hcat as [Hl _].
  - intros md Hin. rewrite Hmodules in Hin.
    apply in_map_iff in Hin as (p & <- & Hin).
    apply collect_fold in Hin as [[] | (d & dir & Hd & He & Hp)].
    apply getModulePaths_in_walk in Hp as (entries & Hfs & Hw).
    apply walkNames_sound in Hw as [[] | (name & sub & Hn & Hs & ->)].
    exists d, dir, entries, name, sub. repeat (split; [assumption|]). reflexivity.
Qed.

End newmanager_facts.

Section newmanager_examples.
Import filepath manager newmanager.

Lemma NewManager_witness :
  let Expand := fun d : string => (d, @None error) in
  let lies := fun _ : string => Dir [("modA", Dir [("Chart.yaml", File)])] in
  let copyright := exampleLinter "copyright" (fun _ => (errors.empty, None)) in
  let probes := exampleLinter "probes" (fun _ => (errors.empty, None)) in
  let config := {| DisableAll := true; EnableAll := false;
                   Enable := ["Probes"]; Disable := [] |} in
  let m := {| cfg := config; Linters := [probes]; Modules := ["root/modA"];
              lintersMap := fillLintersMap [copyright; probes] |} in
  NewManager_returns Expand lies [copyright; probes] ["root"] config m /\
  (forall l, In l (Linters m) -> In l [copyright; probes]).
Proof.
  intros Expand lies copyright probes config m.
  assert (Hm : NewManager_returns Expand lies [copyright; probes] ["root"] config m).
  { repeat split. vm_compute. apply Permutation_refl. }
  split; [exact Hm|].
  exact (proj1 (NewManager_takes_linters_and_modules_from_what_it_is_given
                  Expand lies [copyright; probes] ["root"] config m Hm)).
Defined.

End newmanager_examples.

(** ** More on groups and on [Run] *)

Section group_more.
Context {S : Type}.

Import errgroup.

(** With the limit 1 a task starts when the one before it has returned. *)
Lemma Wait_limit_one (tasks : list (task (S := S))) (s s' : S) (e' : option error) :
  Wait 1 tasks s s' e' -> inOrder tasks s None = (s', e').
Proof.
  unfold Wait. intros Hrtc.
  assert (Hinv : exists finished,
             finished ++ [] ++ [] = tasks /\ length (@nil (task (S := S))) <= 1 /\
             inOrder finished s None = (s', e')).
  { revert Hrtc.
    apply (rtc_ind_r
             (fun st => exists finished,
                  finished ++ running st ++ queue st = tasks /\
                  length (running st) <= 1 /\
                  inOrder finished s None = (shared st, firstErr st))).
    - exists []. cbn. auto.
    - intros st st' _ Hstep (finished & Hall & Hlen & Hrun).
      destruct Hstep as [t q r s1 e1 Hadm | t q r1 r2 s1 e1 s2 e2 Ht];
        cbn [running queue shared firstErr] in *.
      + assert (r = []) as ->.
        { destruct r; [reflexivity|]. unfold admits in Hadm. cbn [length] in Hadm. lia. }
        exists finished. cbn [app length] in *. auto.
      + assert (r1 = [] /\ r2 = []) as [-> ->].
        { destruct r1; [destruct r2; [auto|]|]; rewrite ?length_app in Hlen;
            cbn [length app] in Hlen; lia. }
        exists (finished ++ [t]). cbn [app length] in *. split; [|split; [lia|]].
        * now rewrite <- app_assoc.
        * rewrite inOrder_app, Hrun. cbn [fst snd inOrder]. now rewrite Ht. }
  destruct Hinv as (finished & Hall & _ & Hrun). rewrite !app_nil_r in Hall. now subst.
Qed.

(** A group of one task at most has one outcome. *)
Lemma Wait_at_most_one (limit : Z) (tasks : list (task (S := S))) (s s' : S)
    (e' : option error) :
  length tasks <= 1 ->
  Wait limit tasks s s' e' -> inOrder tasks s None = (s', e').
Proof.
  intros Hlen Hwait. apply Wait_some_order in Hwait as (order & Hperm & Hrun).
  assert (order = tasks) as <-; [|exact Hrun].
  destruct tasks as [|t [|t' tasks]]; cbn [length] in Hlen; try lia.
  - now apply Permutation_nil.
  - now apply Permutation_length_1_inv.
Qed.

End group_more.

Section Run_more.
Context `{GoAny} `{Console} `{ModulePkg}.

Import errors manager orchestration.

Lemma Wait_block {A : Type} (limit : Z) (f : A -> errgroup.task (S := LintRuleErrorsList))
    (g : A -> list LintRuleError) (xs : list A)
    (result result1 : LintRuleErrorsList) (e : option error) :
  (forall x result', data (fst (f x result')) = data result' ++ g x) ->
  errgroup.Wait limit (map f xs) result result1 e ->
  exists block,
    data result1 = data result ++ block /\ Permutation block (flat_map g xs).
Proof.
  intros Hf Hwait.
  assert (Hadded : forall x, added (f x) = g x).
  { intros x. unfold added. now rewrite Hf. }
  apply Wait_some_order in Hwait as (order & Hperm & Hrun).
  apply (f_equal fst) in Hrun. cbn [fst] in Hrun. rewrite <- Hrun.
  exists (flat_map added order). split.
  - apply inOrder_data. intros t Hin s'. apply (Permutation_in _ Hperm) in Hin.
    apply in_map_iff in Hin as (x & <- & _). now rewrite Hadded, Hf.
  - rewrite <- (flat_map_added f g xs Hadded). now apply Permutation_flat_map.
Qed.

(** X11: the result of [Run] is made of one block of findings for each
    linter, in the order of [m.Linters]; the block of a linter holds its
    findings on all the modules, in an order that depends on the
    interleaving. *)
Theorem Run_groups_the_findings_by_linter (m : Manager) (result : LintRuleErrorsList) :
  Run_returns m result ->
  exists blocks,
    data result = concat blocks /\
    Forall2 (fun l block => Permutation block (flat_map (findings l) (Modules m)))
            (Linters m) blocks.
Proof.
  unfold Run_returns.
  assert (Hgen : forall ls r r',
             RunLoop (Modules m) ls r r' ->
             exists blocks,
               data r' = data r ++ concat blocks /\
               Forall2 (fun l block => Permutation block (flat_map (findings l) (Modules m)))
                       ls blocks).
  { induction 1 as [r | l ls r r1 r2 e Hwait _ IH].
    - exists []. cbn [concat]. rewrite app_nil_r. auto.
    - destruct IH as (blocks & Hdata & Hall).
      destruct (Wait_block _ (runTask l) (findings l) (Modules m) _ _ _ (runTask_data l) Hwait)
        as (block & Hblock & Hperm).
      exists (block :: blocks). split; [|now constructor].
      cbn [concat]. now rewrite Hdata, Hblock, app_assoc. }
  intros Hrun. destruct (Hgen _ _ _ Hrun) as (blocks & Hdata & Hall).
  exists blocks. split; [exact Hdata | exact Hall].
Qed.

(** X12: with the limit 1, [Run] of the revision of part_000 has one
    result, that of running the linters on each module in turn. *)
Theorem rev_Run_with_limit_one_is_sequential (m : Manager) (result : LintRuleErrorsList) :
  manager_rev.Run_returns 1 m result -> result = manager_rev.RunInOrder m.
Proof.
  unfold manager_rev.Run_returns, manager_rev.RunInOrder.
  generalize empty as r. generalize (Modules m) as mds.
  intros mds r Hrun. induction Hrun as [r | md mds r r1 r2 e Hwait _ IH]; [reflexivity|].
  cbn [fold_left]. apply Wait_limit_one in Hwait. rewrite Hwait. exact IH.
Qed.

(** X13: when the manager has one module, [Run] of manager.go has one
    result, that of running the linters in turn. *)
Theorem Run_on_one_module_is_sequential
    (m : Manager) (md : module_Module) (result : LintRuleErrorsList) :
  Modules m = [md] ->
  Run_returns m result -> result = RunInOrder m.
Proof.
  unfold Run_returns, RunInOrder. intros ->.
  generalize empty as r. generalize (Linters m) as ls.
  intros ls r Hrun. induction Hrun as [r | l ls r r1 r2 e Hwait _ IH]; [reflexivity|].
  cbn [fold_left]. apply Wait_at_most_one in Hwait; [|cbn; lia].
  rewrite Hwait. exact IH.
Qed.

Lemma flat_map_nil {A B : Type} (f : A -> list B) (xs : list A) :
  flat_map f xs = [] <-> forall x, In x xs -> f x = [].
Proof.
  induction xs as [|x xs IH]; cbn [flat_map].
  - split; [intros _ x [] | reflexivity].
  - split.
    + intros Happ. apply app_eq_nil in Happ as [Hx Hxs].
      intros y [<- | Hy]; [exact Hx | now apply IH].
    + intros Hall. rewrite (Hall x (or_introl eq_refl)).
      apply IH. intros y Hy. apply Hall. now right.
Qed.

(** X14: [Run] returns a set without report, for which [ConvertToError]
    is [nil], exactly when no pair of a linter and a module has a
    finding; a pair whose linter fails has none. *)
Theorem Run_reports_nothing_iff_no_pair_has_findings
    (m : Manager) (result : LintRuleErrorsList) :
  Run_returns m result ->
  ConvertToError result = None <->
  forall l md, In l (Linters m) -> In md (Modules m) -> findings l md = [].
Proof.
  intros Hrun. apply RunLoop_data in Hrun. cbn [data empty app] in Hrun.
  rewrite ConvertToError_nil. split.
  - intros Hnil l md Hl Hmd. rewrite Hnil in Hrun. apply Permutation_nil in Hrun.
    apply flat_map_nil with (x := l) in Hrun; [|exact Hl].
    now apply flat_map_nil with (x := md) in Hrun.
  - intros Hall. apply Permutation_nil. rewrite Hrun.
    replace (flat_map (fun l => flat_map (findings l) (Modules m)) (Linters m))
      with (@nil LintRuleError); [reflexivity|].
    symmetry. apply flat_map_nil. intros l Hl. apply flat_map_nil. intros md Hmd.
    now apply Hall.
Qed.

End Run_more.

Section Run_more_examples.
Import errors manager orchestration.

Lemma Run_groups_the_findings_by_linter_witness :
  exists blocks,
    data (RunInOrder exampleManager) = concat blocks /\
    Forall2 (fun l block =>
               Permutation block (flat_map (findings l) (Modules exampleManager)))
            (Linters exampleManager) blocks.
Proof.
  exact (Run_groups_the_findings_by_linter exampleManager (RunInOrder exampleManager)
           (RunLoop_inOrder _ _ _)).
Defined.

Lemma rev_Run_with_limit_one_witness :
  let result :=
    {| data := [finding "copyright" "root/modA" "violation";
                finding "probes" "root/modA" "violation";
                finding "probes" "root/modB" "violation"] |} in
  manager_rev.Run_returns 1 exampleManager result /\
  result = manager_rev.RunInOrder exampleManager.
Proof.
  intros result.
  assert (Hone : (1 <> 0)%Z) by discriminate.
  assert (Hrun : manager_rev.Run_returns 1 exampleManager result)
    by exact (rev_RunLoop_inOrder 1 _ _ _ Hone).
  split; [exact Hrun|].
  exact (rev_Run_with_limit_one_is_sequential exampleManager result Hrun).
Defined.

Lemma Run_on_one_module_witness :
  let m := {| cfg := cfg exampleManager; Linters := Linters exampleManager;
              Modules := ["root/modA"]; lintersMap := ∅ |} in
  let result :=
    {| data := [finding "copyright" "root/modA" "violation";
                finding "probes" "root/modA" "violation"] |} in
  Modules m = ["root/modA"] /\ Run_returns m result /\ result = RunInOrder m.
Proof.
  intros m result. split; [reflexivity|].
  assert (Hrun : Run_returns m result) by exact (RunLoop_inOrder _ _ _).
  split; [exact Hrun|].
  exact (Run_on_one_module_is_sequential m "root/modA" result eq_refl Hrun).
Defined.

Lemma Run_reports_nothing_witness :
  let m := {| cfg := cfg exampleManager;
              Linters := [failingOn "root/modA" "copyright"];
              Modules := ["root/modA"]; lintersMap := ∅ |} in
  Run_returns m (RunInOrder m) /\ ConvertToError (RunInOrder m) = None.
Proof.
  intros m.
  assert (Hrun : Run_returns m (RunInOrder m)) by exact (RunLoop_inOrder _ _ _).
  split; [exact Hrun|].
  apply (proj2 (Run_reports_nothing_iff_no_pair_has_findings m (RunInOrder m) Hrun)).
  intros l md [<- | []] [<- | []]. reflexivity.
Defined.

End Run_more_examples.

(** ** The documents of a rendered file: [SplitAt] under the scanner *)

Section scan_facts.
Import probes notions.

Lemma prefix_split (p s : string) :
  String.prefix p s = true -> s = p +:+ from (String.length p) s.
Proof.
  revert s. induction p as [|c p IH]; intros s Hp; [reflexivity|].
  destruct s as [|d s]; simpl in Hp; [discriminate|].
  destruct (ascii_dec c d) as [<- | ]; [|discriminate].
  rewrite append_String. cbn [String.length from]. f_equal. now apply IH.
Qed.

Lemma from_length (n : nat) (s : string) :
  String.length (from n s) = String.length s - n.
Proof.
  revert s. induction n as [|n IH]; intros s; cbn [from]; [lia|].
  destruct s as [|c s]; cbn [String.length]; [lia | apply IH].
Qed.

(** Where [strings.Index] finds the separator, the text is what comes
    before, the separator, and what comes after. *)
Lemma Index_Some (s sep : string) (i : nat) :
  Index s sep = Some i ->
  s = String.substring 0 i s +:+ sep +:+ from (i + String.length sep) s /\
  String.length (String.substring 0 i s) = i.
Proof.
  revert i. induction s as [|c s IH]; intros i Hi; cbn [Index] in Hi.
  - destruct (strings.HasPrefix EmptyString sep) eqn:Hp; [|discriminate].
    injection Hi as <-. unfold strings.HasPrefix in Hp.
    split; [exact (prefix_split sep EmptyString Hp) | reflexivity].
  - destruct (strings.HasPrefix (String c s) sep) eqn:Hp.
    + injection Hi as <-. unfold strings.HasPrefix in Hp.
      split; [exact (prefix_split sep (String c s) Hp) | reflexivity].
    + destruct (Index s sep) as [i'|] eqn:Hs; [|discriminate].
      injection Hi as <-. destruct (IH i' eq_refl) as [Heq Hlen].
      cbn [String.substring plus from String.length].
      rewrite append_String. split; [now rewrite <- Heq | now rewrite Hlen].
Qed.

Lemma HasPrefix_empty (sep : string) :
  sep <> EmptyString -> strings.HasPrefix EmptyString sep = false.
Proof. intros Hsep. destruct sep; [congruence | reflexivity]. Qed.

(** What comes before the separator does not hold it. *)
Lemma Index_before (s sep : string) (i : nat) :
  sep <> EmptyString ->
  Index s sep = Some i -> Index (String.substring 0 i s) sep = None.
Proof.
  intros Hsep. revert i. induction s as [|c s IH]; intros i Hi; cbn [Index] in Hi.
  - rewrite (HasPrefix_empty sep Hsep) in Hi. discriminate.
  - destruct (strings.HasPrefix (String c s) sep) eqn:Hp.
    + injection Hi as <-. cbn [String.substring Index].
      now rewrite (HasPrefix_empty sep Hsep).
    + destruct (Index s sep) as [i'|] eqn:Hs; [|discriminate].
      injection Hi as <-. cbn [String.substring Index].
      rewrite (IH i' eq_refl). cbn [option_map].
      destruct (strings.HasPrefix (String c (String.substring 0 i' s)) sep) eqn:Hq;
        [|reflexivity].
      exfalso. destruct (Index_Some s sep i' Hs) as [Heq _].
      unfold strings.HasPrefix in *. rewrite Heq, <- append_String in Hp.
      rewrite (prefix_app_l _ _ _ Hq) in Hp. discriminate.
Qed.

Lemma Index_None_Contains (s sep : string) :
  Index s sep = None <-> strings.Contains s sep = false.
Proof.
  induction s as [|c s IH]; cbn [Index strings.Contains].
  - destruct (strings.HasPrefix EmptyString sep); cbn [orb]; split; congruence.
  - destruct (strings.HasPrefix (String c s) sep); cbn [orb]; [split; congruence|].
    rewrite <- IH. destruct (Index s sep); cbn [option_map]; split; congruence.
Qed.

Lemma join_cons (sep t : string) (ts : list string) :
  ts <> [] -> join sep (t :: ts) = t +:+ sep +:+ join sep ts.
Proof. destruct ts; [congruence | reflexivity]. Qed.

Lemma SplitAt_atEOF (sep data : string) :
  SplitAt sep data true =
  if String.length data =? 0 then (0, None)
  else match Index data sep with
       | Some i => (i + String.length sep, Some (String.substring 0 i data))
       | None => (String.length data, Some data)
       end.
Proof. reflexivity. Qed.

(** The tokens of the scanner, for a separator that is not empty and
    fuel beyond the length of the input. *)
Lemma scanTokens_spec (sep : string) :
  sep <> EmptyString ->
  forall fuel data,
    String.length data < fuel ->
    let ts := scanTokens (SplitAt sep) fuel data in
    Forall (fun t => strings.Contains t sep = false) ts /\
    ((data = EmptyString /\ ts = []) \/
     (data <> EmptyString /\ ts <> [] /\
      (join sep ts = data \/ join sep ts +:+ sep = data))).
Proof.
  intros Hsep. induction fuel as [|fuel IH]; intros data Hlen; [lia|].
  cbn zeta. cbn [scanTokens]. rewrite SplitAt_atEOF.
  destruct data as [|c data'] eqn:Hdata.
  - cbn [String.length Nat.eqb]. split; [constructor | left; auto].
  - rewrite <- Hdata in *. assert (Hne : data <> EmptyString) by (subst; discriminate).
    replace (String.length data =? 0) with false
      by (symmetry; apply Nat.eqb_neq; subst; cbn; lia).
    destruct (Index data sep) as [i|] eqn:Hi.
    + destruct (Index_Some data sep i Hi) as [Heq Hpre].
      set (rest := from (i + String.length sep) data) in *.
      assert (Hrest : String.length rest < fuel).
      { unfold rest. rewrite from_length.
        assert (0 < String.length sep) by (destruct sep; [congruence | cbn [String.length]; lia]).
        assert (0 < String.length data) by (rewrite Hdata; cbn [String.length]; lia).
        lia. }
      destruct (IH rest Hrest) as [Hall Hshape]. cbn zeta in Hall, Hshape.
      split.
      * constructor; [|exact Hall]. apply Index_None_Contains. now apply Index_before.
      * right. split; [exact Hne|]. split; [discriminate|].
        destruct Hshape as [[Hr ->] | (_ & Hts & [Hj | Hj])].
        -- right. cbn [join]. rewrite Heq at 2. now rewrite Hr, append_empty_r.
        -- left. rewrite (join_cons _ _ _ Hts), Hj. now rewrite <- Heq.
        -- right. rewrite (join_cons _ _ _ Hts), !append_assoc, Hj. now rewrite <- Heq.
    + assert (Hend : from (String.length data) data = EmptyString).
      { clear. induction data as [|c d IHd]; [reflexivity | exact IHd]. }
      rewrite Hend.
      assert (Hstop : scanTokens (SplitAt sep) fuel EmptyString = []).
      { destruct fuel; reflexivity. }
      rewrite Hstop. split.
      * constructor; [|constructor]. now apply Index_None_Contains.
      * right. split; [exact Hne|]. split; [discriminate|]. left. reflexivity.
Qed.

(** X15: for a separator that is not empty and an input shorter than
    the buffer of the scanner, no token the scanner yields holds the
    separator, and the tokens with the separator between them are the
    input, or the input less the separator it ends with; there is no
    token exactly when the input is empty. *)
Theorem Scan_cuts_the_input_at_the_separators (sep input : string) :
  sep <> EmptyString ->
  String.length input < MaxScanTokenSize ->
  let tokens := Scan (SplitAt sep) input in
  Forall (fun t => strings.Contains t sep = false) tokens /\
  (join sep tokens = input \/ join sep tokens +:+ sep = input) /\
  (tokens = [] <-> input = EmptyString).
Proof.
  intros Hsep _. cbn zeta. unfold Scan.
  destruct (scanTokens_spec sep Hsep (S (String.length input)) input (Nat.lt_succ_diag_r _))
    as [Hall Hshape].
  cbn zeta in Hall, Hshape. split; [exact Hall|].
  destruct Hshape as [[-> ->] | (Hne & Hts & Hj)].
  - split; [now left | tauto].
  - split; [exact Hj | tauto].
Qed.

(** X16: the split function keeps to the contract of the scanner: it
    never advances beyond the data, a token is the start of the data and
    no longer than the advance; without a separator in the data it asks
    for more before the end of the input, and at the end of an input that
    is not empty it moves on and gives a token. *)
Theorem SplitAt_keeps_the_contract_of_the_scanner (sep data : string) (atEOF : bool) :
  fst (SplitAt sep data atEOF) <= String.length data /\
  (forall token, snd (SplitAt sep data atEOF) = Some token ->
     strings.HasPrefix data token = true /\
     String.length token <= fst (SplitAt sep data atEOF)) /\
  (atEOF = false -> Index data sep = None -> SplitAt sep data atEOF = (0, None)) /\
  (sep <> EmptyString -> atEOF = true -> data <> EmptyString ->
     0 < fst (SplitAt sep data atEOF) /\ snd (SplitAt sep data atEOF) <> None).
Proof.
  unfold SplitAt.
  destruct (atEOF && (String.length data =? 0)) eqn:Hstop.
  - apply andb_true_iff in Hstop as [-> Hzero]. apply Nat.eqb_eq in Hzero.
    cbn [fst snd]. split; [lia|]. split; [discriminate|]. split; [discriminate|].
    intros _ _ Hne. destruct data; [congruence | discriminate Hzero].
  - destruct (Index data sep) as [i|] eqn:Hi.
    + destruct (Index_Some data sep i Hi) as [Heq Hpre]. cbn [fst snd].
      assert (Hlen : String.length data =
                     i + String.length sep + String.length (from (i + String.length sep) data)).
      { rewrite Heq at 1. rewrite !length_append, Hpre. lia. }
      split; [lia|]. split; [|split; [discriminate|]].
      * intros token [= <-]. split; [|lia].
        unfold strings.HasPrefix. rewrite Heq at 2. apply prefix_app.
      * intros Hsep _ _. split; [|discriminate].
        destruct sep; [congruence | cbn [String.length]; lia].
    + destruct atEOF; cbn [fst snd].
      * split; [lia|]. split; [|split; [discriminate|]].
        -- intros token [= <-]. split; [|lia].
           unfold strings.HasPrefix. rewrite <- (append_empty_r data) at 2. apply prefix_app.
        -- intros _ _ Hne. split; [|discriminate].
           destruct data; [congruence | cbn [String.length]; lia].
      * split; [lia|]. split; [discriminate|]. split; [reflexivity | discriminate].
Qed.

End scan_facts.

Section scan_examples.
Import probes notions.

Lemma Scan_cuts_the_input_witness :
  "---" <> EmptyString /\
  String.length "kind: A---kind: B---" < MaxScanTokenSize /\
  Scan (SplitAt "---") "kind: A---kind: B---" = ["kind: A"; "kind: B"] /\
  (join "---" (Scan (SplitAt "---") "kind: A---kind: B---") = "kind: A---kind: B---" \/
   join "---" (Scan (SplitAt "---") "kind: A---kind: B---") +:+ "---" = "kind: A---kind: B---").
Proof.
  assert (Hsep : "---" <> EmptyString) by discriminate.
  assert (Hshort : String.length "kind: A---kind: B---" < MaxScanTokenSize)
    by (unfold MaxScanTokenSize; cbn [String.length]; lia).
  split; [exact Hsep|]. split; [exact Hshort|]. split; [reflexivity|].
  exact (proj1 (proj2 (Scan_cuts_the_input_at_the_separators
                         "---" "kind: A---kind: B---" Hsep Hshort))).
Defined.

Lemma SplitAt_keeps_the_contract_witness :
  SplitAt "---" "kind: A---kind: B" true = (10, Some "kind: A") /\
  0 < fst (SplitAt "---" "kind: A---kind: B" true) /\
  snd (SplitAt "---" "kind: A---kind: B" true) <> None.
Proof.
  split; [reflexivity|].
  apply (proj2 (proj2 (proj2 (SplitAt_keeps_the_contract_of_the_scanner
                                "---" "kind: A---kind: B" true))));
    [intros E; discriminate E | reflexivity | intros E; discriminate E].
Defined.

End scan_examples.

(** ** [RunRender]: the cache, the documents and their errors *)

Section render_more.
Context `{RenderPkg}.

Import probes rendering.

(** X17: a call of [RunRender] changes the cache by the hash it presents
    and by nothing else; a call that presents none, the rendering or the
    hashing having failed, returns an error and leaves the object store
    and the cache as they were. *)
Theorem RunRender_adds_the_presented_hash_only
    (m : module_Module) (values : Values) (objectStore : UnstructuredObjectStore)
    (cache : gset N) :
  (forall hash, presents m values = Some hash ->
     snd (RunRender m values objectStore cache) = {[hash]} ∪ cache) /\
  (presents m values = None ->
     fst (fst (RunRender m values objectStore cache)) <> None /\
     snd (fst (RunRender m values objectStore cache)) = objectStore /\
     snd (RunRender m values objectStore cache) = cache).
Proof.
  split.
  - intros hash Hp. destruct (Load cache hash) eqn:Hl.
    + rewrite (RunRender_skips m values objectStore cache hash Hp Hl). cbn [snd].
      apply Load_true in Hl. symmetry. apply subseteq_union_1_L.
      now apply singleton_subseteq_l.
    + now rewrite (RunRender_marks m values objectStore cache hash Hp Hl).
  - unfold presents, RunRender. intros Hp.
    destruct (RenderChartFromRawValues _ _ _) as [files [err|]]; [cbn; auto|].
    destruct (Hash files) as [hash [err|]]; [cbn; auto | discriminate].
Qed.

(** The loop over the documents goes on after documents that went well. *)
Lemma scanDocs_app (path : string) (docs rest : list string)
    (objectStore : UnstructuredObjectStore) :
  scanDocs path (docs ++ rest) objectStore =
  match scanDocs path docs objectStore with
  | (Some err, objectStore') => (Some err, objectStore')
  | (None, objectStore') => scanDocs path rest objectStore'
  end.
Proof.
  revert objectStore. induction docs as [|doc docs IH]; intros objectStore; [reflexivity|].
  cbn [app scanDocs]. destruct (Unmarshal doc) as [node [err|]]; [reflexivity|].
  destruct (node_len node =? 0); [apply IH|].
  destruct (Put path node doc objectStore) as [objectStore' [err|]]; [reflexivity | apply IH].
Qed.

(** X18: the loop over the documents of a file ends at the first
    document that does not parse or that the store refuses: the error
    tells which of the two, the documents after it are not looked at, and
    those stored before it stay in the store. *)
Theorem scanDocs_ends_at_the_first_error
    (path : string) (before after : list string) (bad : string)
    (objectStore stored : UnstructuredObjectStore) :
  scanDocs path before objectStore = (None, stored) ->
  (forall node err,
      Unmarshal bad = (node, Some err) ->
      scanDocs path (before ++ bad :: after) objectStore =
      (Some (errorString (manifestErrorMessage (Error err) (numerateManifestLines bad))),
       stored)) /\
  (forall node err refused,
      Unmarshal bad = (node, None) ->
      node_len node <> 0 ->
      Put path node bad stored = (refused, Some err) ->
      scanDocs path (before ++ bad :: after) objectStore =
      (Some (errorString ("helm chart object already exists: " +:+ Error err)), refused)).
Proof.
  intros Hbefore. split.
  - intros node err Hbad. rewrite scanDocs_app, Hbefore. cbn [scanDocs]. now rewrite Hbad.
  - intros node err refused Hbad Hlen Hput. rewrite scanDocs_app, Hbefore.
    cbn [scanDocs]. rewrite Hbad. apply Nat.eqb_neq in Hlen. now rewrite Hlen, Hput.
Qed.

(** X19: a document that parses to an empty map is passed over: the
    loop does with and without it the same. *)
Theorem scanDocs_passes_over_empty_documents
    (path : string) (before after : list string) (doc : string) (node : yamlNode)
    (objectStore : UnstructuredObjectStore) :
  Unmarshal doc = (node, None) ->
  node_len node = 0 ->
  scanDocs path (before ++ doc :: after) objectStore =
  scanDocs path (before ++ after) objectStore.
Proof.
  intros Hdoc Hlen. rewrite !scanDocs_app.
  destruct (scanDocs path before objectStore) as [[err|] stored]; [reflexivity|].
  cbn [scanDocs]. now rewrite Hdoc, Hlen.
Qed.

End render_more.

Section render_more_examples.
Import probes rendering.

Lemma RunRender_adds_the_presented_hash_witness :
  presents (H0 := exampleRender) "root/modA" tt = Some 28%N /\
  snd (RunRender (H0 := exampleRender) "root/modA" tt [] {[5%N]}) = {[28%N]} ∪ {[5%N]}.
Proof.
  split; [reflexivity|].
  exact (proj1 (RunRender_adds_the_presented_hash_only (H0 := exampleRender)
                  "root/modA" tt [] {[5%N]}) 28%N eq_refl).
Defined.

Lemma scanDocs_ends_at_the_first_error_witness :
  scanDocs (H0 := exampleRender) "a.yaml" ["kind: A"] [] = (None, ["kind: A"]) /\
  scanDocs (H0 := exampleRender) "a.yaml" (["kind: A"] ++ "kind: A" :: ["kind: B"]) [] =
  (Some (errorString "helm chart object already exists: object already exists"),
   ["kind: A"]).
Proof.
  split; [reflexivity|].
  exact (proj2 (scanDocs_ends_at_the_first_error (H0 := exampleRender)
                  "a.yaml" ["kind: A"] ["kind: B"] "kind: A" [] ["kind: A"] eq_refl)
           "kind: A" (errorString "object already exists") ["kind: A"]
           eq_refl (fun E : 7 = 0 => match E with end) eq_refl).
Defined.

Lemma scanDocs_passes_over_empty_documents_witness :
  scanDocs (H0 := exampleRender) "a.yaml" (["kind: A"] ++ EmptyString :: ["kind: B"]) [] =
  scanDocs (H0 := exampleRender) "a.yaml" (["kind: A"] ++ ["kind: B"]) [].
Proof.
  exact (scanDocs_passes_over_empty_documents (H0 := exampleRender)
           "a.yaml" ["kind: A"] ["kind: B"] EmptyString EmptyString [] eq_refl eq_refl).
Defined.

End render_more_examples.

(** ** The numbered listing of a manifest *)

Section numerate_facts.
Import probes notions.

Lemma splitFuel_spec (sep : string) :
  sep <> EmptyString ->
  forall fuel s,
    String.length s <= fuel ->
    splitFuel fuel s sep <> [] /\ join sep (splitFuel fuel s sep) = s.
Proof.
  intros Hsep. induction fuel as [|fuel IH]; intros s Hlen.
  - cbn [splitFuel join]. split; [discriminate | reflexivity].
  - cbn [splitFuel]. destruct (Index s sep) as [i|] eqn:Hi.
    + destruct (Index_Some s sep i Hi) as [Heq Hpre].
      assert (Hrest : String.length (from (i + String.length sep) s) <= fuel).
      { rewrite from_length.
        assert (0 < String.length sep) by (destruct sep; [congruence | cbn [String.length]; lia]).
        lia. }
      destruct (IH _ Hrest) as [Hne Hjoin].
      split; [discriminate|]. rewrite (join_cons _ _ _ Hne), Hjoin. now rewrite <- Heq.
    + cbn [join]. split; [discriminate | reflexivity].
Qed.

Lemma numerateFrom_line (manifestLines : list string) :
  forall index i line,
    nth_error manifestLines i = Some line ->
    strings.Contains (numerateFrom index manifestLines)
      (itoa (index + i + 1) +:+ strings.TAB +:+ line +:+ strings.LF) = true.
Proof.
  induction manifestLines as [|l rest IH]; intros index i line Hnth.
  - destruct i; discriminate Hnth.
  - cbn [numerateFrom]. destruct i as [|i]; cbn [nth_error] in Hnth.
    + injection Hnth as ->. rewrite Nat.add_0_r.
      replace (itoa (index + 1) +:+ strings.TAB +:+ line +:+ strings.LF +:+
               numerateFrom (S index) rest)
        with ((itoa (index + 1) +:+ strings.TAB +:+ line +:+ strings.LF) +:+
              numerateFrom (S index) rest)
        by now rewrite !append_assoc.
      apply Contains_prefix, prefix_app.
    + do 4 apply Contains_app_skip.
      replace (index + S i + 1) with (S index + i + 1) by lia. now apply IH.
Qed.

(** X20: the lines of the listing are the lines of the manifest, those
    that joined by line feeds give the manifest back, each after its
    number, counted from 1, and a tab. *)
Theorem numerateManifestLines_numbers_every_line (manifest : string) :
  join strings.LF (Split manifest strings.LF) = manifest /\
  forall i line,
    nth_error (Split manifest strings.LF) i = Some line ->
    strings.Contains (numerateManifestLines manifest)
      (itoa (i + 1) +:+ strings.TAB +:+ line +:+ strings.LF) = true.
Proof.
  split.
  - unfold Split. apply splitFuel_spec; [discriminate | lia].
  - intros i line Hnth. unfold numerateManifestLines.
    exact (numerateFrom_line _ 0 i line Hnth).
Qed.

End numerate_facts.

Section numerate_examples.
Import probes notions.

Lemma numerateManifestLines_witness :
  let manifest := "kind: A" +:+ strings.LF +:+ ": broken" in
  nth_error (Split manifest strings.LF) 1 = Some ": broken" /\
  strings.Contains (numerateManifestLines manifest)
    ("2" +:+ strings.TAB +:+ ": broken" +:+ strings.LF) = true.
Proof.
  intros manifest. split; [reflexivity|].
  exact (proj2 (numerateManifestLines_numbers_every_line manifest) 1 ": broken" eq_refl).
Defined.

End numerate_examples.

(** ** The checks of [FROM] instructions *)

Section rules_facts.
Import rules.

Lemma prefix_trans (p q s : string) :
  String.prefix p q = true -> String.prefix q s = true -> String.prefix p s = true.
Proof.
  intros Hpq Hqs. rewrite (prefix_split q s Hqs). now apply prefix_app_l.
Qed.

Lemma checkDistrolessPrefix_spec (str : string) (patterns : list string) :
  checkDistrolessPrefix str patterns = true <->
  exists pattern, In pattern patterns /\ strings.HasPrefix str pattern = true.
Proof.
  induction patterns as [|pattern rest IH]; cbn [checkDistrolessPrefix].
  - split; [discriminate | intros (p & [] & _)].
  - destruct (strings.HasPrefix str pattern) eqn:Hp.
    + split; [|reflexivity]. intros _. exists pattern. split; [now left | exact Hp].
    + rewrite IH. split.
      * intros (p & Hin & Hq). exists p. split; [now right | exact Hq].
      * intros (p & [<- | Hin] & Hq); [congruence|]. exists p. auto.
Qed.

(** X21: an instruction accepted as the last [FROM] of a Dockerfile is
    accepted as an intermediate one; [scratch] is accepted in both
    places, and the message is empty exactly when the instruction is
    accepted. *)
Theorem last_FROM_accepted_is_accepted_anywhere (from : string) :
  (fst (isDockerfileInstructionUnacceptable from true) = false ->
   fst (isDockerfileInstructionUnacceptable from false) = false) /\
  (forall final, isDockerfileInstructionUnacceptable "scratch" final = (false, EmptyString)) /\
  (forall final,
      fst (isDockerfileInstructionUnacceptable from final) = false <->
      snd (isDockerfileInstructionUnacceptable from final) = EmptyString).
Proof.
  split; [|split].
  - unfold isDockerfileInstructionUnacceptable.
    destruct (String.eqb from "scratch"); [reflexivity|].
    change (index distrolessImagesPrefix "docker") with ["$BASE_DISTROLESS"; "$BASE_ALT"].
    destruct (checkDistrolessPrefix from ["$BASE_DISTROLESS"; "$BASE_ALT"]) eqn:Hc;
      cbn [negb fst]; [intros _ | discriminate].
    apply checkDistrolessPrefix_spec in Hc as (pattern & Hin & Hp).
    assert (Hbase : strings.HasPrefix from "$BASE_" = true).
    { unfold strings.HasPrefix in *.
      destruct Hin as [<- | [<- | []]]; eapply prefix_trans; try exact Hp; reflexivity. }
    rewrite Hbase. reflexivity.
  - intros []; reflexivity.
  - intros final. unfold isDockerfileInstructionUnacceptable.
    destruct (String.eqb from "scratch"); [tauto|].
    destruct final.
    + destruct (negb (checkDistrolessPrefix from (index distrolessImagesPrefix "docker")));
        cbn [fst snd]; split; congruence.
    + destruct (negb (strings.HasPrefix from "$BASE_") && negb (matchSha256 from));
        cbn [fst snd]; split; congruence.
Qed.

End rules_facts.

Section rules_examples.
Import rules.

Lemma last_FROM_accepted_witness :
  fst (isDockerfileInstructionUnacceptable "$BASE_ALT_DEV" true) = false /\
  fst (isDockerfileInstructionUnacceptable "$BASE_ALT_DEV" false) = false.
Proof.
  split; [reflexivity|].
  exact (proj1 (last_FROM_accepted_is_accepted_anywhere "$BASE_ALT_DEV") eq_refl).
Defined.

(** A digest of 64 hexadecimal digits makes an image acceptable between
    the first and the last instruction, and does not make it acceptable
    as the last one. *)
Example pinned_image_is_intermediate_only :
  let from := "alpine@sha256:" +:+
              "0123456789abcdef0123456789ABCDEF0123456789abcdef0123456789ABCDEF" in
  fst (isDockerfileInstructionUnacceptable from false) = false /\
  fst (isDockerfileInstructionUnacceptable from true) = true.
Proof. split; reflexivity. Qed.

End rules_examples.

(** ** The helm linter under [Run] *)

Section helm_facts.
Context `{GoAny} `{Console} `{ModulePkg} {HelmSettings : Type}.
Variable ApplyHelmRules : module_Module -> errors.LintRuleErrorsList.

Import errors manager orchestration.

(** X22: the helm linter returns no error, and the empty set for the
    [nil] module; so whatever [ApplyHelmRules] finds on a module of the
    manager is in every result of [Run], whichever other linters fail. *)
Theorem helm_findings_are_always_reported
    (h : helm.Helm (HelmSettings := HelmSettings)) :
  (forall md, snd (helm.Run ApplyHelmRules h md) = None) /\
  helm.Run ApplyHelmRules h None = (empty, None) /\
  (forall (m : Manager) (result : LintRuleErrorsList) (md : module_Module)
          (f : LintRuleError),
      In (helmlinter.asLinter ApplyHelmRules h) (Linters m) ->
      In md (Modules m) ->
      In f (data (ApplyHelmRules md)) ->
      Run_returns m result ->
      In f (data result)).
Proof.
  split; [intros [md|]; reflexivity|]. split; [reflexivity|].
  intros m result md f Hl Hmd Hf Hrun.
  apply RunLoop_data in Hrun. cbn [data empty app] in Hrun.
  apply (Permutation_in _ (Permutation_sym Hrun)).
  apply in_flat_map. exists (helmlinter.asLinter ApplyHelmRules h). split; [exact Hl|].
  apply in_flat_map. exists md. split; [exact Hmd|].
  unfold findings, helmlinter.asLinter, helm.Run. cbn [Run Merge data empty app]. exact Hf.
Qed.

End helm_facts.

Section helm_examples.
Import errors manager.

Lemma helm_findings_are_always_reported_witness :
  let rules := fun md : string => {| data := [finding "helm" md "chart has no version"] |} in
  let h := fst (helm.New tt) in
  let m := {| cfg := cfg exampleManager;
              Linters := [failingOn "root/modA" "copyright"; helmlinter.asLinter rules h];
              Modules := ["root/modA"]; lintersMap := ∅ |} in
  Run_returns m (RunInOrder m) /\
  In (finding "helm" "root/modA" "chart has no version") (data (RunInOrder m)).
Proof.
  intros rules h m.
  assert (Hrun : Run_returns m (RunInOrder m)) by exact (RunLoop_inOrder _ _ _).
  split; [exact Hrun|].
  refine (proj2 (proj2 (helm_findings_are_always_reported rules h))
            m (RunInOrder m) "root/modA" _ _ _ _ Hrun).
  - right. left. reflexivity.
  - left. reflexivity.
  - left. reflexivity.
Defined.

End helm_examples.

(** ** The search root in the two revisions of [getModulePaths] *)

Section root_facts.
Import filepath discovery notions.

(** The directories of a tree have paths no shorter than that of the
    tree. *)
Lemma directories_longer (info : node) :
  forall path p n,
    In (p, n) (directories path info) -> String.length path <= String.length p.
Proof.
  induction info as [ | msg | msg | entries IH ] using node_tree_ind;
    intros path p n Hin; try contradiction.
  cbn [directories] in Hin. destruct Hin as [[= <- _] | Hin]; [lia|].
  apply in_flat_map in Hin as ([name child] & Hentry & Hin).
  rewrite Forall_forall in IH. specialize (IH (name, child)).
  apply IH in Hin; [|now apply list_elem_of_In].
  unfold Join in Hin. rewrite !length_append in Hin. cbn [String.length] in Hin. lia.
Qed.

(** In the revision of part_000 the search root is returned exactly when
    it passes the test of the closure. *)
Lemma rev_getModulePaths_root (dir : string) (fs : node) :
  readable fs = true ->
  In dir (fst (manager_rev.getModulePaths dir fs)) <-> isModuleRev fs = true.
Proof.
  intros Hr. unfold manager_rev.getModulePaths, Walk.
  assert (Hw : match fs with
               | Inaccessible msg =>
                   manager_rev.visit dir fs (Some (PathError "lstat" dir msg)) []
               | _ => walk manager_rev.visit dir fs []
               end = walk manager_rev.visit dir fs []).
  { destruct fs; reflexivity. }
  rewrite Hw, (rev_walk_readable fs dir [] Hr).
  cbn [fst app]. destruct fs as [ | entries | msg | msg ]; try discriminate Hr.
  - cbn. split; [intros [] | discriminate].
  - cbn [directories List.filter snd]. split.
    + intros Hin. destruct (isModuleRev (Dir entries)) eqn:Hm; [reflexivity|].
      exfalso. apply in_map_iff in Hin as ([p n] & Hp & Hin). cbn [fst] in Hp. subst p.
      apply filter_In in Hin as [Hin _].
      apply in_flat_map in Hin as ([name child] & _ & Hin).
      apply directories_longer in Hin.
      unfold Join in Hin. rewrite !length_append in Hin. cbn [String.length] in Hin. lia.
    + intros ->. cbn [map fst]. now left.
Qed.

(** C7, as the code has it: in manager.go the search root is never among
    the modules returned, whatever lies at it, and a root none of whose
    entries is a directory with the marker yields no module, also when
    the root holds the marker itself; the revision of part_000 has no
    guard for the root and, on a tree in which nothing fails, returns the
    search root exactly when the root passes its test. *)
Theorem C7_root_is_never_a_module_in_manager_go_only :
  (forall (dir : string) (fs : node),
      ~ In dir (fst (manager.getModulePaths dir fs))) /\
  (forall (dir : string) (entries : list (string * node)),
      (forall e, In e entries -> isModuleDir manager.ChartConfigFilename e = false) ->
      fst (manager.getModulePaths dir (Dir entries)) = []) /\
  manager.getModulePaths "root" (Dir [("Chart.yaml", File)]) = ([], None) /\
  (forall (dir : string) (fs : node),
      readable fs = true ->
      In dir (fst (manager_rev.getModulePaths dir fs)) <-> isModuleRev fs = true).
Proof.
  destruct getModulePaths_never_returns_the_root as (Hnever & Hempty & Hexample).
  split; [exact Hnever|]. split; [exact Hempty|]. split; [exact Hexample|].
  exact rev_getModulePaths_root.
Qed.

(** The search root holds the marker and a [hooks] directory: the
    revision of part_000 returns the root itself as a module. *)
Lemma C7_counterexample_root_returned_by_part_000 :
  let fs := Dir [("Chart.yaml", File); ("hooks", Dir [])] in
  statOK fs manager.ChartConfigFilename = true /\
  manager_rev.getModulePaths "root" fs = (["root"], None) /\
  In "root" (fst (manager_rev.getModulePaths "root" fs)).
Proof.
  intros fs. split; [reflexivity|]. split; [reflexivity|]. left. reflexivity.
Qed.

Lemma C7_witness_root_in_both_revisions :
  let entries := [("Chart.yaml", File); ("templates", Dir [("a.yaml", File)])] in
  let marked := Dir [("module.yaml", File); ("modA", Dir [("module.yaml", File)])] in
  fst (manager.getModulePaths "root" (Dir entries)) = [] /\
  readable marked = true /\
  In "root" (fst (manager_rev.getModulePaths "root" marked)).
Proof.
  intros entries marked. split; [|split; [reflexivity|]].
  - apply (proj1 (proj2 C7_root_is_never_a_module_in_manager_go_only) "root" entries).
    intros e [<- | [<- | []]]; reflexivity.
  - exact (proj2 (proj2 (proj2 (proj2 C7_root_is_never_a_module_in_manager_go_only))
                    "root" marked eq_refl) eq_refl).
Defined.

End root_facts.
